(** * Shallow embedding of shadermake (src/src/lib.rs, src/src/manifest.rs)

    The build core: manifest-driven shader discovery ([gather_shaders]),
    the (source kind, target) dispatch table ([compile_fn]), the three
    transformations, the per-shader [compile] step and the parallel
    [build] coordinator with its shared success flag.

    External collaborators (the TOML parser, naga, shaderc and UTF-8
    validation) are black boxes gathered in the [Toolchain] class; the
    [Logger] trait is a class; the file system is an explicit state. *)

From Stdlib Require Import List String Ascii Bool ZArith Lia Permutation.
From Stdlib Require Import Strings.Byte.
Import ListNotations.
Open Scope string_scope.
Open Scope list_scope.

(* ------------------------------------------------------------------ *)
(** ** Errors and the result monad *)

(** An [anyhow::Error] is its chain of messages, outermost context
    first: [.context(c)] pushes [c] in front. *)
Definition error := list string.

(** [anyhow::Result<A>] extended with the panic of [unreachable!()]:
    a panic unwinds through every caller, like [RErr] does through [?]. *)
Inductive res (A : Type) : Type :=
| ROk (a : A)
| RErr (e : error)
| RPanic.
Arguments ROk {A} a.
Arguments RErr {A} e.
Arguments RPanic {A}.

Definition bind {A B} (m : res A) (k : A -> res B) : res B :=
  match m with
  | ROk a => k a
  | RErr e => RErr e
  | RPanic => RPanic
  end.

Notation "'let?' x ':=' m 'in' k" := (bind m (fun x => k))
  (at level 200, x name, m at level 100, k at level 200).

(** [anyhow::Context::context] / [with_context] on a [Result]. *)
Definition context {A} (c : string) (m : res A) : res A :=
  match m with
  | RErr e => RErr (c :: e)
  | r => r
  end.

(** [anyhow::Context::context] on an [Option]: [None] becomes an error
    whose only message is the context. *)
Definition ocontext {A} (c : string) (o : option A) : res A :=
  match o with
  | Some a => ROk a
  | None => RErr [c]
  end.

(* ------------------------------------------------------------------ *)
(** ** Paths ([std::path::Path]) *)

(** A path as its component list: [p_abs] is a leading root component;
    [p_comps] are the remaining components ([Normal] names, a leading
    ["."] or [".."] entries), as [Path::components] yields them.
    [PathBuf] equality compares components, as equality here does. *)
Record Path := mkPath { p_abs : bool; p_comps : list string }.

Definition rel_path (cs : list string) : Path := mkPath false cs.

(** A leading ["."] component removed. *)
Definition drop_cur (cs : list string) : list string :=
  match cs with
  | c :: rest => if String.eqb c "." then rest else cs
  | [] => []
  end.

(** [Path::join] ([PathBuf::push]) read back through [components]: an
    absolute argument replaces the base; pushed onto the empty path the
    argument is the whole result; otherwise it follows a separator, so a
    leading ["."] of it becomes an interior component, which
    [components] drops ([/proj] joined with [./post] is [/proj/post]). *)
Definition join (p q : Path) : Path :=
  if p_abs q then q
  else match p_abs p, p_comps p with
       | false, [] => q
       | _, _ => mkPath (p_abs p) (p_comps p ++ drop_cur (p_comps q))
       end.

(** [Path::display]. *)
Fixpoint concat_sep (sep : string) (l : list string) : string :=
  match l with
  | [] => ""
  | [x] => x
  | x :: r => (x ++ sep ++ concat_sep sep r)%string
  end.

Definition display (p : Path) : string :=
  ((if p_abs p then "/" else "") ++ concat_sep "/" (p_comps p))%string.

(** [Path::file_name]: the last component when it is a [Normal] one. *)
Definition file_name (p : Path) : option string :=
  match last (map Some (p_comps p)) None with
  | Some c =>
      if String.eqb c ".." || String.eqb c "." || String.eqb c "" then None
      else Some c
  | None => None
  end.

(** Split at the last ['.']: [Some (before, after)], or [None] without a dot
    (the [rsplitn(2, '.')] of [rsplit_file_at_dot]). *)
Fixpoint rsplit_dot (s : string) : option (string * string) :=
  match s with
  | EmptyString => None
  | String c rest =>
      match rsplit_dot rest with
      | Some (b, a) => Some (String c b, a)
      | None => if Ascii.eqb c "." then Some ("", rest) else None
      end
  end.

(** [std::path::rsplit_file_at_dot]. *)
Definition rsplit_file_at_dot (file : string) : option string * option string :=
  if String.eqb file ".." then (Some file, None)
  else match rsplit_dot file with
       | None => (None, Some file)
       | Some (before, after) =>
           if String.eqb before "" then (Some file, None)
           else (Some before, Some after)
       end.

(** [Path::file_stem]: [before.or(after)]. *)
Definition file_stem (p : Path) : option string :=
  match file_name p with
  | None => None
  | Some f =>
      match rsplit_file_at_dot f with
      | (Some b, _) => Some b
      | (None, a) => a
      end
  end.

(** [Path::extension]: [before.and(after)]. *)
Definition extension (p : Path) : option string :=
  match file_name p with
  | None => None
  | Some f =>
      match rsplit_file_at_dot f with
      | (Some _, a) => a
      | (None, _) => None
      end
  end.

(** [PathBuf::set_extension]: truncate after the file stem, then append
    ["." ++ ext] unless [ext] is empty; no file stem, no change. *)
Definition set_extension (p : Path) (ext : string) : Path :=
  match file_stem p with
  | None => p
  | Some st =>
      mkPath (p_abs p)
        (removelast (p_comps p) ++
           [if String.eqb ext "" then st else (st ++ "." ++ ext)%string])
  end.

(** The path with its extension removed. *)
Definition path_stem (p : Path) : Path := set_extension p "".

(** [pathdiff::diff_paths(path, base)]: the component loop after the
    common root, with [acc] the [comps] vector built so far. *)
Fixpoint diff_comps (ita itb : list string) (acc : list string)
  : option (list string) :=
  match itb with
  | [] =>
      match ita with
      | [] => Some acc
      | a :: ra => Some (acc ++ a :: ra)
      end
  | b :: rb =>
      match ita with
      | [] => diff_comps [] rb (acc ++ [".."])
      | a :: ra =>
          if (match acc with [] => true | _ => false end) && String.eqb a b
          then diff_comps ra rb acc
          else if String.eqb b "." then diff_comps ra rb (acc ++ [a])
          else if String.eqb b ".." then None
          else Some (acc ++ ".." :: map (fun _ => "..") rb ++ a :: ra)
      end
  end.

Definition diff_paths (path base : Path) : option Path :=
  if Bool.eqb (p_abs path) (p_abs base) then
    match diff_comps (p_comps path) (p_comps base) [] with
    | Some cs => Some (rel_path cs)
    | None => None
    end
  else if p_abs path then Some path else None.

(* ------------------------------------------------------------------ *)
(** ** Targets, shader kinds, source kinds *)

Inductive Target := Spirv | Wgsl | Glsl.

(** [Target::extension]. *)
Definition target_extension (t : Target) : string :=
  match t with
  | Spirv => "spv"
  | Wgsl => "wgsl"
  | Glsl => "glsl"
  end.

(** [Target::from_str]: the message of the [anyhow!] error for an
    unknown name. *)
Definition target_error (s : string) : string :=
  "invalid target '" ++ s ++ "' (expected: spv, spirv, wgsl, glsl)".

(** [Target::from_str], which parses the [--target] option. *)
Definition target_from_str (s : string) : res Target :=
  match s with
  | "spv" | "spirv" => ROk Spirv
  | "wgsl" => ROk Wgsl
  | "glsl" => ROk Glsl
  | s => RErr [target_error s]
  end.

(** [manifest::ShaderKind]. *)
Inductive ShaderKind := Vertex | Fragment | Compute.

(** [naga::ShaderStage] and [From<ShaderKind>]. *)
Inductive ShaderStage := StageVertex | StageFragment | StageCompute.

Definition naga_stage (k : ShaderKind) : ShaderStage :=
  match k with
  | Vertex => StageVertex
  | Fragment => StageFragment
  | Compute => StageCompute
  end.

Inductive ShaderSourceKind := SrcWgsl | SrcGlsl.

(** [ShaderSourceKind::guess]: [path.extension()?.to_str()?]; the
    [to_str] step always succeeds on these (UTF-8) components. *)
Definition guess (p : Path) : option ShaderSourceKind :=
  match extension p with
  | Some "wgsl" => Some SrcWgsl
  | Some "glsl" => Some SrcGlsl
  | _ => None
  end.

(** The three function pointers [compile_fn] can return. *)
Inductive CompileFn := compile_naga_wgsl_fn | compile_identity_fn | compile_shaderc_glsl_fn.

(** [compile_fn]. *)
Definition compile_fn (sk : ShaderSourceKind) (t : Target) : option CompileFn :=
  match sk, t with
  | SrcWgsl, (Glsl | Spirv) => Some compile_naga_wgsl_fn
  | SrcWgsl, Wgsl => Some compile_identity_fn
  | SrcGlsl, Spirv => Some compile_shaderc_glsl_fn
  | SrcGlsl, Wgsl => None
  | SrcGlsl, Glsl => Some compile_identity_fn
  end.

(** [Path::new(s)] for a [String] from a manifest: split on ['/'];
    a leading ['/'] is the root; empty and interior ["."] segments are
    dropped, a leading ["."] of a relative path is kept ([CurDir]). *)
Fixpoint split_slash (s : string) : list string :=
  match s with
  | EmptyString => [""]
  | String c rest =>
      let segs := split_slash rest in
      if Ascii.eqb c "/" then "" :: segs
      else match segs with
           | seg :: more => String c seg :: more
           | [] => [String c ""]
           end
  end.

Definition keep_seg (x : string) : bool := negb (String.eqb x "" || String.eqb x ".").

Definition path_of_string (s : string) : Path :=
  let abs := match s with String c _ => Ascii.eqb c "/" | EmptyString => false end in
  let segs := split_slash s in
  let cur := match segs with
             | first :: _ => if negb abs && String.eqb first "." then ["."] else []
             | [] => []
             end in
  mkPath abs (cur ++ filter keep_seg segs).

Definition path_eq_dec (p q : Path) : {p = q} + {p <> q}.
Proof. decide equality; [apply list_eq_dec, string_dec | apply bool_dec]. Defined.

(* ------------------------------------------------------------------ *)
(** ** Manifest model (src/src/manifest.rs) *)

(** [manifest::Shader]. *)
Record Shader := mkShader { sh_path : string; sh_kind : ShaderKind }.

(** [manifest::Manifest]; the [HashMap<String, Shader>] is the list of its
    entries in the map's iteration order. *)
Record Manifest := mkManifest {
  subdirectories : list string;
  shaders : list (string * Shader) }.

(** [ShaderToCompile]. *)
Record ShaderToCompile := mkShaderToCompile {
  stc_name : string;
  stc_path : Path;
  stc_kind : ShaderKind }.

(** [Options]. *)
Record Options := mkOptions {
  source_dir : Path;
  target_dir : Path;
  target : Target }.

(* ------------------------------------------------------------------ *)
(** ** External collaborators *)

(** [naga::back::spv::Capability], [WriterFlags] and the GLSL options
    record, as far as [compile_naga] fills them in. *)
Inductive Capability := CapabilityShader.
Inductive WriterFlags := WriterFlagsDEBUG.
Inductive GlslVersion := Desktop (v : nat).
Record GlslOptions := mkGlslOptions {
  glsl_version : GlslVersion;
  glsl_entry_point : ShaderStage * string }.

(** The libraries the core calls: their results are [Ok]/[Err] with the
    library's error message; none of them is modelled as panicking. *)
Class Toolchain := {
  NagaModule : Type;
  (** [std::str::from_utf8] *)
  from_utf8 : list byte -> option string;
  (** [toml::from_str::<Manifest>] *)
  toml_from_str : string -> Manifest + string;
  (** [naga::front::wgsl::parse_str] *)
  wgsl_parse_str : string -> NagaModule + string;
  (** [naga::back::spv::write_vec] *)
  spv_write_vec : NagaModule -> WriterFlags -> list Capability -> list Z + string;
  (** [naga::back::glsl::Writer::new] followed by [write] *)
  glsl_write : NagaModule -> GlslOptions -> list byte + string;
  (** [shaderc::Compiler::new()] is [Some] *)
  shaderc_compiler_new : bool;
  (** [Compiler::compile_into_spirv(source, kind, file_name, entry_point, None)] *)
  shaderc_compile_into_spirv : string -> ShaderKind -> string -> string -> list byte + string }.

(** The [?] conversion of a library error into an [anyhow::Error]. *)
Definition lift {A} (r : A + string) : res A :=
  match r with
  | inl a => ROk a
  | inr msg => RErr [msg]
  end.

(** [Result::ok]. *)
Definition ok {A} (r : A + string) : option A :=
  match r with inl a => Some a | inr _ => None end.

(** Stand-ins for the texts of [Utf8Error], [io::ErrorKind::NotFound] and
    [PermissionDenied]; the real messages carry more detail (the byte
    offset, the OS error), and no property below depends on their text. *)
Definition utf8_error := "invalid utf-8 sequence".
Definition io_error := "No such file or directory (os error 2)".
Definition write_error := "Permission denied (os error 13)".

(* ------------------------------------------------------------------ *)
(** ** File system *)

(** The files by path, and which paths a write may create or replace.
    Directories are not modelled: [create_dir_all]'s result is discarded
    by [compile], and a missing directory shows as an unwritable path. *)
Record FS := mkFS {
  fs_file : Path -> option (list byte);
  fs_writable : Path -> bool }.

(** [fs::read]. *)
Definition fs_read (fs : FS) (p : Path) : res (list byte) :=
  match fs_file fs p with
  | Some b => ROk b
  | None => RErr [io_error]
  end.

(** [fs::write]: the new state, or the error (state unchanged).
    Modelling assumptions: a write that fails is taken to fail when the
    file is opened, before anything is truncated (a failure part-way
    through writing, a full disk say, is not modelled); and
    [fs_writable] is fixed for the run: the directories [create_dir_all]
    creates are folded into it, and a file written by one shader is not
    taken to block the directory another one needs. *)
Definition fs_write (fs : FS) (p : Path) (b : list byte) : res unit * FS :=
  if fs_writable fs p then
    (ROk tt, mkFS (fun q => if path_eq_dec q p then Some b else fs_file fs q)
                  (fs_writable fs))
  else (RErr [write_error], fs).

Section Core.
Context {T : Toolchain}.

(** [fs::read_to_string]: a read followed by UTF-8 validation. *)
Definition fs_read_to_string (fs : FS) (p : Path) : res string :=
  let? b := fs_read fs p in
  match from_utf8 b with
  | Some s => ROk s
  | None => RErr [utf8_error]
  end.

(* ------------------------------------------------------------------ *)
(** ** Discovery ([gather_shaders]) *)

Definition manifest_file : Path := rel_path ["shadermake.toml"].

(** [Manifest::from_toml]. *)
Definition from_toml (s : string) : res Manifest := lift (toml_from_str s).

(** The read and the parse of one directory's manifest, with the two
    [context]/[with_context] layers of each [?]. *)
Definition read_manifest (fs : FS) (directory : Path) : res Manifest :=
  let manifest_path := join directory manifest_file in
  let? manifest_string :=
    context ("failed to read " ++ display manifest_path)
      (context "failed to read manifest file" (fs_read_to_string fs manifest_path)) in
  context ("malformed manifest file " ++ display manifest_path)
    (context "failed to parse manifest" (from_toml manifest_string)).

Definition shader_to_compile (directory : Path) (entry : string * Shader) : ShaderToCompile :=
  mkShaderToCompile (fst entry) (join directory (path_of_string (sh_path (snd entry))))
    (sh_kind (snd entry)).

(** The [while let Some(directory) = queued_directories.pop()] loop.
    [queued] is the stack with its top ([Vec::pop]'s end) at the head, so
    [push] is [cons]. The Rust loop is unbounded (a subdirectory cycle
    does not terminate): [None] means it has not ended within [fuel]
    iterations. *)
Fixpoint gather_loop (fuel : nat) (fs : FS) (queued : list Path)
    (shaders_acc : list ShaderToCompile) : option (res (list ShaderToCompile)) :=
  match fuel with
  | O => None
  | S fuel' =>
      match queued with
      | [] => Some (ROk shaders_acc)
      | directory :: queued' =>
          match read_manifest fs directory with
          | ROk manifest =>
              let shaders_acc' :=
                shaders_acc ++ map (shader_to_compile directory) (shaders manifest) in
              let queued'' :=
                fold_left (fun q subdirectory => join directory (path_of_string subdirectory) :: q)
                  (subdirectories manifest) queued' in
              gather_loop fuel' fs queued'' shaders_acc'
          | RErr e => Some (RErr e)
          | RPanic => Some RPanic
          end
      end
  end.

Definition gather_shaders (fuel : nat) (fs : FS) (source_dir : Path)
  : option (res (list ShaderToCompile)) :=
  gather_loop fuel fs [source_dir] [].

End Core.

(* ------------------------------------------------------------------ *)
(** ** Transformations and the per-shader compile *)

(** [bytemuck::cast_slice::<u32, u8>] on a little-endian machine. *)
Definition byte_of_Z (z : Z) : byte :=
  match Byte.of_N (Z.to_N (Z.land z 255)) with Some b => b | None => x00 end.

Definition word_bytes (w : Z) : list byte :=
  map (fun i => byte_of_Z (Z.shiftr w (8 * i))) [0; 1; 2; 3]%Z.

Definition cast_slice (ws : list Z) : list byte := flat_map word_bytes ws.

Section Compile.
Context {T : Toolchain}.

(** [compile_naga]. *)
Definition compile_naga (module : NagaModule) (kind : ShaderKind) (target : Target)
  : res (list byte) :=
  let stage := naga_stage kind in
  match target with
  | Spirv =>
      let capabilities := [CapabilityShader] in
      let? u32s := lift (spv_write_vec module WriterFlagsDEBUG capabilities) in
      ROk (cast_slice u32s)
  | Glsl =>
      let options := mkGlslOptions (Desktop 450) (stage, "main") in
      lift (glsl_write module options)
  | Wgsl => RPanic (* unreachable!() *)
  end.

(** [compile_naga_wgsl]. *)
Definition compile_naga_wgsl (source : list byte) (kind : ShaderKind) (target : Target)
  : res (list byte) :=
  let? text := match from_utf8 source with
               | Some s => ROk s
               | None => RErr [utf8_error]
               end in
  let? module := ocontext "failed to parse WGSL" (ok (wgsl_parse_str text)) in
  compile_naga module kind target.

(** [compile_identity]. *)
Definition compile_identity (source : list byte) (_ : ShaderKind) (_ : Target)
  : res (list byte) :=
  ROk source.

(** [compile_shaderc_glsl]. *)
Definition compile_shaderc_glsl (source : list byte) (kind : ShaderKind) (_ : Target)
  : res (list byte) :=
  let? _compiler := ocontext "failed to create shaderc compiler"
                      (if shaderc_compiler_new then Some tt else None) in
  let? text := match from_utf8 source with
               | Some s => ROk s
               | None => RErr [utf8_error]
               end in
  lift (shaderc_compile_into_spirv text kind "" "main").

(** Calling the function pointer returned by [compile_fn]. *)
Definition call_compile_fn (f : CompileFn) : list byte -> ShaderKind -> Target -> res (list byte) :=
  match f with
  | compile_naga_wgsl_fn => compile_naga_wgsl
  | compile_identity_fn => compile_identity
  | compile_shaderc_glsl_fn => compile_shaderc_glsl
  end.

Definition guess_error :=
  "failed to guess shader source kind from file extension (expected 'glsl' or 'wgsl')".
Definition dispatch_error := "failed to find a suitable compilation tool for shader".

(** [compile_source]. *)
Definition compile_source (source : list byte) (shader : ShaderToCompile) (options : Options)
  : res (list byte) :=
  let? source_kind := ocontext guess_error (guess (stc_path shader)) in
  let? f := ocontext dispatch_error (compile_fn source_kind (target options)) in
  let? result := context "failed to compile shader"
                   (call_compile_fn f source (stc_kind shader) (target options)) in
  ROk result.

(** The output path of [compile]: [target_dir.join(base_path)] with its
    extension set to the target's. *)
Definition target_path_of (options : Options) (base_path : Path) : Path :=
  set_extension (join (target_dir options) base_path) (target_extension (target options)).

(** [compile] up to the [fs::write]: read the source, translate it,
    compute the output path ([create_dir_all]'s result is discarded and
    directories are not modelled). *)
Definition compile_prepare (fs : FS) (shader : ShaderToCompile) (options : Options)
  : res (Path * list byte) :=
  let source_path := join (source_dir options) (stc_path shader) in
  let? source := context ("failed to read " ++ display source_path) (fs_read fs source_path) in
  let? output := compile_source source shader options in
  let? base_path := ocontext "no base path" (diff_paths source_path (source_dir options)) in
  ROk (target_path_of options base_path, output).

(** [compile]: the result and the file system after it. *)
Definition compile (fs : FS) (shader : ShaderToCompile) (options : Options) : res unit * FS :=
  match compile_prepare fs shader options with
  | ROk (target_path, output) => fs_write fs target_path output
  | RErr e => (RErr e, fs)
  | RPanic => (RPanic, fs)
  end.

End Compile.

(* ------------------------------------------------------------------ *)
(** ** The [Logger] trait *)

(** The observer [build] reports to; each notification is a state
    transformer on the logger's state. *)
Class Logger (L : Type) := {
  on_shaders_gathered : L -> nat -> L;
  on_compiling : L -> string -> L;
  on_compile_error : L -> string -> string -> L;
  on_completed : L -> L }.

(** A logger that records the notifications it receives, in order. *)
Inductive event :=
| EvShadersGathered (num_shaders : nat)
| EvCompiling (shader : string)
| EvCompileError (shader : string) (err : string)
| EvCompleted.

#[export] Instance trace_logger : Logger (list event) := {
  on_shaders_gathered l n := l ++ [EvShadersGathered n];
  on_compiling l s := l ++ [EvCompiling s];
  on_compile_error l s e := l ++ [EvCompileError s e];
  on_completed l := l ++ [EvCompleted] }.

(** [format!("{:?}", e)] for an [anyhow::Error], simplified: the message,
    then its causes after a [Caused by:] line; anyhow's exact layout
    (numbered, indented causes) is not reproduced, and no property below
    depends on the text. *)
Definition debug_error (e : error) : string :=
  match e with
  | [] => ""
  | m :: [] => m
  | m :: causes => (m ++ String (ascii_of_nat 10) "Caused by: " ++ concat_sep ": " causes)%string
  end.

(* ------------------------------------------------------------------ *)
(** ** The parallel build ([build]) *)

(** Where one worker stands in the body of the [for_each] closure:
    before [on_compiling]; before [compile]; with [compile]'s output
    computed and the [fs::write] pending; with [compile] failed and
    [on_compile_error] pending; with the error logged and
    [success.store(false)] pending; finished. *)
Inductive tstate :=
| TPending
| TStarted
| TWriting (target_path : Path) (output : list byte)
| TFailing (e : error)
| TFlagging (e : error)
| TDone (r : res unit).

(** The coordinator: file system, logger, the [AtomicBool] and the
    workers, one per worklist item. *)
Record cstate (L : Type) := mkCState {
  c_fs : FS;
  c_log : L;
  c_success : bool;
  c_threads : list (ShaderToCompile * tstate) }.
Arguments mkCState {L} c_fs c_log c_success c_threads.
Arguments c_fs {L} c.
Arguments c_log {L} c.
Arguments c_success {L} c.
Arguments c_threads {L} c.

Fixpoint replace_nth {A} (n : nat) (x : A) (l : list A) : list A :=
  match l, n with
  | [], _ => []
  | _ :: r, O => x :: r
  | y :: r, S n' => y :: replace_nth n' x r
  end.

Section Build.
Context {T : Toolchain} {L : Type} `{Logger L}.

(** One atomic step of a worker running the closure for [shader]. *)
Definition step_thread (options : Options) (shader : ShaderToCompile) (ts : tstate)
    (fs : FS) (log : L) (success : bool) : option (tstate * FS * L * bool) :=
  match ts with
  | TPending => Some (TStarted, fs, on_compiling log (stc_name shader), success)
  | TStarted =>
      match compile_prepare fs shader options with
      | ROk (target_path, output) => Some (TWriting target_path output, fs, log, success)
      | RErr e => Some (TFailing e, fs, log, success)
      | RPanic => Some (TDone RPanic, fs, log, success)
      end
  | TWriting target_path output =>
      match fs_write fs target_path output with
      | (ROk _, fs') => Some (TDone (ROk tt), fs', log, success)
      | (RErr e, fs') => Some (TFailing e, fs', log, success)
      | (RPanic, fs') => Some (TDone RPanic, fs', log, success)
      end
  | TFailing e =>
      Some (TFlagging e, fs, on_compile_error log (stc_name shader) (debug_error e), success)
  | TFlagging e => Some (TDone (RErr e), fs, log, false)
  | TDone _ => None
  end.

(** Worker [i] takes one step; [None] when it has finished or does not exist. *)
Definition step (options : Options) (i : nat) (st : cstate L) : option (cstate L) :=
  match nth_error (c_threads st) i with
  | Some (shader, ts) =>
      match step_thread options shader ts (c_fs st) (c_log st) (c_success st) with
      | Some (ts', fs', log', success') =>
          Some (mkCState fs' log' success' (replace_nth i (shader, ts') (c_threads st)))
      | None => None
      end
  | None => None
  end.

(** An interleaving of the workers: [sched] lists who moves at each step
    (a finished worker's turn is a no-op). *)
Definition run (options : Options) (sched : list nat) (st : cstate L) : cstate L :=
  fold_left (fun st i => match step options i st with Some st' => st' | None => st end)
    sched st.

(** Every worker finishes within five steps of its own; [finish] lets
    each one run to its end, which is the join of [for_each]. *)
Definition finish (options : Options) (st : cstate L) : cstate L :=
  run options (flat_map (fun i => repeat i 5) (seq 0 (List.length (c_threads st)))) st.

(** The [into_par_iter().for_each(..)] over the worklist under the
    interleaving [sched], followed by the join. *)
Definition compile_all (options : Options) (sched : list nat) (log : L) (fs : FS)
    (shaders : list ShaderToCompile) : cstate L :=
  finish options
    (run options sched (mkCState fs log true (map (fun s => (s, TPending)) shaders))).

Definition is_panicked (ts : tstate) : bool :=
  match ts with TDone RPanic => true | _ => false end.

Definition exit_code (st : cstate L) : Z := if c_success st then 0%Z else 1%Z.

End Build.

(** How [build] ends: [Err] from [?], [std::process::exit(code)], or a
    worker's panic resumed after the join. *)
Inductive build_outcome :=
| BuildErr (e : error)
| BuildExit (code : Z)
| BuildPanic.

Section BuildFn.
Context {T : Toolchain} {L : Type} `{Logger L}.

(** [build]. [None]: discovery does not end within [fuel] iterations. *)
Definition build (fuel : nat) (sched : list nat) (options : Options) (fs : FS) (log : L)
  : option (build_outcome * FS * L) :=
  match gather_shaders fuel fs (source_dir options) with
  | None => None
  | Some (RErr e) => Some (BuildErr e, fs, log)
  | Some RPanic => Some (BuildPanic, fs, log)
  | Some (ROk shaders) =>
      let log' := on_shaders_gathered log (List.length shaders) in
      let st := compile_all options sched log' fs shaders in
      if existsb (fun p => is_panicked (snd p)) (c_threads st)
      then Some (BuildPanic, c_fs st, c_log st)
      else Some (BuildExit (exit_code st), c_fs st, c_log st)
  end.

End BuildFn.

(* ------------------------------------------------------------------ *)
(** ** A concrete instance for evaluating the model *)

Module Demo.

(** Manifest documents the toy TOML reader knows, and what they parse to. *)
Definition root_toml : string :=
  "subdirectories = ['post']
shaders = { blit = { path = 'blit.wgsl', kind = 'fragment' } }".
Definition post_toml : string :=
  "shaders = { bloom = { path = 'bloom.wgsl', kind = 'fragment' } }".
Definition broken_toml : string := "shaders = { blit = { path = 'blit.wgsl' } }".

Definition root_manifest : Manifest :=
  mkManifest ["post"] [("blit", mkShader "blit.wgsl" Fragment)].
Definition post_manifest : Manifest :=
  mkManifest [] [("bloom", mkShader "bloom.wgsl" Fragment)].

Definition toy_toml (s : string) : Manifest + string :=
  if String.eqb s root_toml then inl root_manifest
  else if String.eqb s post_toml then inl post_manifest
  else if String.eqb s "" then inl (mkManifest [] [])
  else inr "missing field `kind`".

#[export] Instance toy_toolchain : Toolchain := {
  NagaModule := string;
  from_utf8 b := Some (string_of_list_byte b);
  toml_from_str := toy_toml;
  wgsl_parse_str s := if String.eqb s "" then inr "expected global item" else inl s;
  spv_write_vec _ _ _ := inl [119734787%Z];
  glsl_write _ _ := inl (list_byte_of_string "#version 450");
  shaderc_compiler_new := true;
  shaderc_compile_into_spirv _ _ _ _ := inl [x03; x02; x23; x07] }.

Definition proj : Path := mkPath true ["proj"].

Fixpoint lookup_file (files : list (Path * string)) (p : Path) : option (list byte) :=
  match files with
  | [] => None
  | (q, s) :: r => if path_eq_dec p q then Some (list_byte_of_string s) else lookup_file r p
  end.

Definition fs_of (files : list (Path * string)) : FS := mkFS (lookup_file files) (fun _ => true).

(** The tree of example scenario 1 of the spec. *)
Definition scenario_files : list (Path * string) :=
  [(mkPath true ["proj"; "shadermake.toml"], root_toml);
   (mkPath true ["proj"; "post"; "shadermake.toml"], post_toml);
   (mkPath true ["proj"; "blit.wgsl"], "@fragment fn main() {}");
   (mkPath true ["proj"; "post"; "bloom.wgsl"], "@fragment fn main() {}")].

Definition scenario_fs : FS := fs_of scenario_files.

Definition opts (t : Target) : Options := mkOptions proj (mkPath true ["proj"; "target"]) t.

End Demo.

(* ------------------------------------------------------------------ *)
(** ** Statement-side definitions *)

(** The path starts with a ["."] component ([./a.wgsl]). *)
Definition leading_cur (p : Path) : bool :=
  match p_comps p with
  | c :: _ => String.eqb c "."
  | [] => false
  end.

(** The three transformation kinds of the spec's dispatch table. *)
Inductive Transformation := ViaIRPipeline | IdentityCopy | ViaNativeCompiler.

Definition transformation_of (f : CompileFn) : Transformation :=
  match f with
  | compile_naga_wgsl_fn => ViaIRPipeline
  | compile_identity_fn => IdentityCopy
  | compile_shaderc_glsl_fn => ViaNativeCompiler
  end.

(** The spec's dispatch table (format A = WGSL, format B = GLSL), as
    written there, to compare with [compile_fn]. *)
Definition spec_dispatch (sk : ShaderSourceKind) (t : Target) : option Transformation :=
  match sk, t with
  | SrcWgsl, Spirv => Some ViaIRPipeline
  | SrcWgsl, Wgsl => Some IdentityCopy
  | SrcWgsl, Glsl => Some ViaIRPipeline
  | SrcGlsl, Spirv => Some ViaNativeCompiler
  | SrcGlsl, Wgsl => None
  | SrcGlsl, Glsl => Some IdentityCopy
  end.

#[local] Set Warnings "-register-all".

(** A manifest tree: a directory whose manifest declares [decls] and
    the subdirectories [subs] (name and subtree), or a directory whose
    manifest cannot be read or parsed. *)
Inductive mtree :=
| MNode (decls : list (string * Shader)) (subs : list (string * mtree))
| MBad.

Fixpoint msize (t : mtree) : nat :=
  match t with
  | MBad => 1
  | MNode _ subs => S (list_sum (map (fun '(_, t') => msize t') subs))
  end.

(** Every declaration of the tree, with the names of the subdirectories
    leading to its manifest, root to leaf. *)
Fixpoint decls_of (t : mtree) : list (list string * (string * Shader)) :=
  match t with
  | MBad => []
  | MNode decls subs =>
      map (fun e => ([], e)) decls ++
      List.concat (map (fun '(n, t') => map (fun '(anc, e) => (n :: anc, e)) (decls_of t')) subs)
  end.

(** The directories of the tree whose manifest is unreadable or malformed. *)
Fixpoint bad_dirs (d : Path) (t : mtree) : list Path :=
  match t with
  | MBad => [d]
  | MNode _ subs =>
      List.concat (map (fun '(n, t') => bad_dirs (join d (path_of_string n)) t') subs)
  end.

(** [root] joined with each ancestor subdirectory name, then with the
    declared path. *)
Definition resolve (root : Path) (anc : list string) (decl : string) : Path :=
  join (fold_left (fun p n => join p (path_of_string n)) anc root) (path_of_string decl).

Definition expected_entries (root : Path) (t : mtree) : list ShaderToCompile :=
  map (fun '(anc, (name, sh)) => mkShaderToCompile name (resolve root anc (sh_path sh)) (sh_kind sh))
    (decls_of t).

(** An error whose outermost message names the manifest of [d]. *)
Definition names_manifest (d : Path) (e : error) : Prop :=
  exists rest,
    e = ("failed to read " ++ display (join d manifest_file))%string :: rest \/
    e = ("malformed manifest file " ++ display (join d manifest_file))%string :: rest.

Section Trees.
Context {T : Toolchain}.

(** The file system holds the manifest tree [t] at directory [d]. *)
Inductive realized (fs : FS) : Path -> mtree -> Prop :=
| realized_bad d e :
    read_manifest fs d = RErr e -> realized fs d MBad
| realized_node d m subs :
    read_manifest fs d = ROk m ->
    subdirectories m = map fst subs ->
    Forall (fun p => realized fs (join d (path_of_string (fst p))) (snd p)) subs ->
    realized fs d (MNode (shaders m) subs).

End Trees.

(** Steps a worker still has to take before it has finished. *)
Definition tmeasure (ts : tstate) : nat :=
  match ts with
  | TPending => 5
  | TStarted => 4
  | TWriting _ _ => 3
  | TFailing _ => 2
  | TFlagging _ => 1
  | TDone _ => 0
  end.

Definition is_done (ts : tstate) : bool :=
  match ts with TDone _ => true | _ => false end.

Definition is_failed (ts : tstate) : bool :=
  match ts with TDone (RErr _) => true | _ => false end.

(** A pending directory of [gather_shaders]'s stack with the tree its
    manifest roots, and the measures of such a stack. *)
Definition child (d : Path) (p : string * mtree) : Path * mtree :=
  (join d (path_of_string (fst p)), snd p).

Definition stack_size (stk : list (Path * mtree)) : nat :=
  list_sum (map (fun p => msize (snd p)) stk).

Definition stack_expected (stk : list (Path * mtree)) : list ShaderToCompile :=
  List.concat (map (fun p => expected_entries (fst p) (snd p)) stk).

Definition stack_bad (stk : list (Path * mtree)) : list Path :=
  List.concat (map (fun p => bad_dirs (fst p) (snd p)) stk).

(** Worker [i] exists and has finished. *)
Definition done_at {L} (st : cstate L) (i : nat) : Prop :=
  match nth_error (c_threads st) i with
  | Some (_, ts) => is_done ts = true
  | None => False
  end.

(** The success flag is the conjunction of the finished workers' outcomes. *)
Definition flag_consistent {L} (st : cstate L) : Prop :=
  c_success st = forallb (fun p => negb (is_failed (snd p))) (c_threads st).

(** Manifest trees of the example file systems. *)
Module DemoTrees.
Import Demo.

(** Scenario 1 of the spec: the root declares [blit] and the
    subdirectory [post], whose manifest declares [bloom]. *)
Definition scenario_tree : mtree :=
  MNode (shaders root_manifest) [("post", MNode (shaders post_manifest) [])].

(** The same tree with the manifest of [post] malformed. *)
Definition broken_files : list (Path * string) :=
  [(mkPath true ["proj"; "shadermake.toml"], root_toml);
   (mkPath true ["proj"; "post"; "shadermake.toml"], broken_toml);
   (mkPath true ["proj"; "blit.wgsl"], "@fragment fn main() {}")].

Definition broken_fs : FS := fs_of broken_files.

Definition broken_tree : mtree := MNode (shaders root_manifest) [("post", MBad)].

End DemoTrees.

(* ================================================================== *)
(** Shaders, file systems and results of the examples below. *)
Module DemoInputs.
Import Demo.

Definition demo_source : string := "@fragment fn main() {}".

(** A format-B shader, a format-A shader and one whose extension is
    upper case, each relative to the source root. *)
Definition tonemap : ShaderToCompile :=
  mkShaderToCompile "tonemap" (rel_path ["tonemap.glsl"]) Fragment.
Definition blit : ShaderToCompile :=
  mkShaderToCompile "blit" (rel_path ["blit.wgsl"]) Fragment.
Definition upper_blit : ShaderToCompile :=
  mkShaderToCompile "blit" (rel_path ["blit.WGSL"]) Fragment.

Definition inputs_fs : FS :=
  fs_of [(mkPath true ["proj"; "tonemap.glsl"], "void main() {}");
         (mkPath true ["proj"; "blit.wgsl"], demo_source);
         (mkPath true ["proj"; "blit.WGSL"], demo_source)].

(** The worklist [gather_shaders] builds for scenario 1 under [/proj]. *)
Definition scenario_ws : list ShaderToCompile :=
  [mkShaderToCompile "blit" (mkPath true ["proj"; "blit.wgsl"]) Fragment;
   mkShaderToCompile "bloom" (mkPath true ["proj"; "post"; "bloom.wgsl"]) Fragment].

(** The notifications of a SPIR-V build of scenario 1. *)
Definition scenario_log : list event :=
  [EvShadersGathered 2; EvCompiling "blit"; EvCompiling "bloom"].

End DemoInputs.

(** A library call with [source_dir = PathBuf::new()]: the manifest
    entries [./blit.wgsl] and [blit.wgsl], gathered under the empty root. *)
Module DotInputs.
Import Demo DemoInputs.

Definition cwd_opts (t : Target) : Options := mkOptions (rel_path []) (mkPath true ["proj"; "target"]) t.

Definition dot_blit : ShaderToCompile :=
  shader_to_compile (rel_path []) ("dot_blit", mkShader "./blit.wgsl" Fragment).
Definition plain_blit : ShaderToCompile :=
  shader_to_compile (rel_path []) ("blit", mkShader "blit.wgsl" Fragment).

Definition dot_fs : FS :=
  fs_of [(rel_path ["."; "blit.wgsl"], demo_source); (rel_path ["blit.wgsl"], demo_source)].

End DotInputs.

(* ================================================================== *)
(** Observers used by the further properties below. *)



(** The worklist of a manifest tree in the order a depth-first walk
    meets it: a directory's own shaders, then its subdirectories, the
    last-listed one first (the stack pops the last push). *)
Fixpoint walk_entries (d : Path) (t : mtree) : list ShaderToCompile :=
  match t with
  | MBad => []
  | MNode decls subs =>
      map (shader_to_compile d) decls ++
      List.concat (rev (map (fun '(n, t') => walk_entries (join d (path_of_string n)) t') subs))
  end.

(** Counting notifications of a recorded log. *)
Definition count_events (f : event -> bool) (log : list event) : nat :=
  List.length (filter f log).

Definition is_compiling_event (e : event) : bool :=
  match e with EvCompiling _ => true | _ => false end.

Definition is_error_event (e : event) : bool :=
  match e with EvCompileError _ _ => true | _ => false end.

(** The shader names of the [on_compiling] notifications of a log, in order. *)
Definition compiling_names (log : list event) : list string :=
  flat_map (fun e => match e with EvCompiling s => [s] | _ => [] end) log.

(** A worker that has not yet announced its shader. *)
Definition is_pending (ts : tstate) : bool :=
  match ts with TPending => true | _ => false end.

(** A worker that has already sent its [on_compile_error]. *)
Definition error_reported (ts : tstate) : bool :=
  match ts with TFlagging _ | TDone (RErr _) => true | _ => false end.

(** A source tree whose only manifest declares nothing. *)
Module ExtraInputs.
Import Demo.

Definition empty_fs : FS := fs_of [(mkPath true ["proj"; "shadermake.toml"], "")].

End ExtraInputs.

(** * Properties *)

(** ** Dispatch and transformations *)

Section DispatchProofs.
Context {T : Toolchain}.

Lemma compile_fn_naga_targets (sk : ShaderSourceKind) (t : Target) :
  compile_fn sk t = Some compile_naga_wgsl_fn <-> sk = SrcWgsl /\ (t = Spirv \/ t = Glsl).
Proof.
  destruct sk, t; simpl; intuition congruence.
Qed.

Lemma compile_naga_wgsl_no_panic (source : list byte) (kind : ShaderKind) (t : Target) :
  t <> Wgsl -> compile_naga_wgsl source kind t <> RPanic.
Proof.
  intros Ht. unfold compile_naga_wgsl, compile_naga, bind, ocontext, ok, lift.
  destruct (from_utf8 source); [|discriminate].
  destruct (wgsl_parse_str s); [|discriminate].
  destruct t; [| congruence |].
  - destruct (spv_write_vec n WriterFlagsDEBUG [CapabilityShader]); discriminate.
  - destruct (glsl_write n _); discriminate.
Qed.

Lemma compile_source_no_panic (source : list byte) (shader : ShaderToCompile) (options : Options) :
  compile_source source shader options <> RPanic.
Proof.
  unfold compile_source, bind, ocontext.
  destruct (guess (stc_path shader)) as [sk|]; [|discriminate].
  destruct (compile_fn sk (target options)) as [f|] eqn:Hf; [|discriminate].
  unfold context.
  destruct f; simpl.
  - assert (Ht : target options <> Wgsl).
    { intros Hw. rewrite Hw in Hf. destruct sk; discriminate. }
    pose proof (compile_naga_wgsl_no_panic source (stc_kind shader) (target options) Ht) as Hn.
    destruct (compile_naga_wgsl _ _ _); [discriminate | discriminate | congruence].
  - discriminate.
  - unfold compile_shaderc_glsl, bind, ocontext, lift.
    destruct shaderc_compiler_new; [|discriminate].
    destruct (from_utf8 source); [|discriminate].
    destruct (shaderc_compile_into_spirv _ _ _ _); discriminate.
Qed.

Lemma compile_prepare_no_panic (fs : FS) (shader : ShaderToCompile) (options : Options) :
  compile_prepare fs shader options <> RPanic.
Proof.
  unfold compile_prepare, bind, context at 1, fs_read.
  destruct (fs_file fs _) as [src|]; [|discriminate].
  pose proof (compile_source_no_panic src shader options) as Hn.
  destruct (compile_source src shader options); [| discriminate | congruence].
  unfold ocontext. destruct (diff_paths _ _); discriminate.
Qed.

(** Failures before the write leave the file system as it was. *)
Lemma compile_error_keeps_fs (fs : FS) (shader : ShaderToCompile) (options : Options) (e : error) :
  compile_prepare fs shader options = RErr e -> compile fs shader options = (RErr e, fs).
Proof. intros H. unfold compile. rewrite H. reflexivity. Qed.

(** The source bytes [compile_prepare] starts from. *)
Lemma compile_prepare_source (fs : FS) (shader : ShaderToCompile) (options : Options) src :
  fs_read fs (join (source_dir options) (stc_path shader)) = ROk src ->
  compile_prepare fs shader options =
    (let? output := compile_source src shader options in
     let? base_path := ocontext "no base path"
                         (diff_paths (join (source_dir options) (stc_path shader)) (source_dir options)) in
     ROk (target_path_of options base_path, output)).
Proof. intros H. unfold compile_prepare. rewrite H. reflexivity. Qed.

(** Claim C1: [compile_fn] returns, for every (source kind, target) pair,
    the transformation of the spec's table, and nothing for (GLSL source,
    WGSL target); compiling such a shader fails with the dispatch error
    and writes no file. *)
Theorem compile_fn_matches_dispatch_table :
  (forall sk t, option_map transformation_of (compile_fn sk t) = spec_dispatch sk t) /\
  (forall fs shader options,
     guess (stc_path shader) = Some SrcGlsl -> target options = Wgsl ->
     snd (compile fs shader options) = fs /\
     (forall src, fs_read fs (join (source_dir options) (stc_path shader)) = ROk src ->
        fst (compile fs shader options) = RErr [dispatch_error])).
Proof.
  split.
  - intros sk t. destruct sk, t; reflexivity.
  - intros fs shader options Hg Ht.
    assert (Hcs : forall src, compile_source src shader options = RErr [dispatch_error]).
    { intros src. unfold compile_source. rewrite Hg, Ht. reflexivity. }
    assert (Hprep : forall src,
               fs_read fs (join (source_dir options) (stc_path shader)) = ROk src ->
               compile_prepare fs shader options = RErr [dispatch_error]).
    { intros src Hr. rewrite (compile_prepare_source _ _ _ src Hr), Hcs. reflexivity. }
    split.
    + unfold compile, compile_prepare, bind, context at 1.
      destruct (fs_read fs _) as [src| e |] eqn:Hr; try reflexivity.
      rewrite Hcs. reflexivity.
    + intros src Hr. rewrite (compile_error_keeps_fs _ _ _ _ (Hprep src Hr)). reflexivity.
Qed.

(** Claim C5: [compile_identity] returns its input for every stage and
    target; a WGSL source compiled to WGSL, or a GLSL source to GLSL,
    yields the source bytes, and [compile] writes exactly the bytes it
    read. *)
Theorem compile_identity_fixed_point :
  (forall source kind t, compile_identity source kind t = ROk source) /\
  (forall source shader options,
     (guess (stc_path shader) = Some SrcWgsl /\ target options = Wgsl) \/
     (guess (stc_path shader) = Some SrcGlsl /\ target options = Glsl) ->
     compile_source source shader options = ROk source) /\
  (forall fs shader options target_path output,
     (guess (stc_path shader) = Some SrcWgsl /\ target options = Wgsl) \/
     (guess (stc_path shader) = Some SrcGlsl /\ target options = Glsl) ->
     compile_prepare fs shader options = ROk (target_path, output) ->
     fs_file fs (join (source_dir options) (stc_path shader)) = Some output).
Proof.
  assert (Hsrc : forall source shader options,
     (guess (stc_path shader) = Some SrcWgsl /\ target options = Wgsl) \/
     (guess (stc_path shader) = Some SrcGlsl /\ target options = Glsl) ->
     compile_source source shader options = ROk source).
  { intros source shader options [[Hg Ht] | [Hg Ht]];
      unfold compile_source; rewrite Hg, Ht; reflexivity. }
  split; [reflexivity | split; [exact Hsrc |]].
  intros fs shader options tp out Hk Hp.
  unfold compile_prepare, bind, context at 1, fs_read in Hp.
  destruct (fs_file fs _) as [src|] eqn:Hf; [|discriminate].
  rewrite (Hsrc src shader options Hk) in Hp.
  unfold ocontext in Hp. destruct (diff_paths _ _); [|discriminate].
  injection Hp as _ Hout. subst. reflexivity.
Qed.

(** Claim C8, as stated: whenever [compile_fn] selects the
    IR-mediated transformation, the target is not GLSL. False: a WGSL
    source with the GLSL target goes through naga. *)
Lemma ir_pipeline_serves_glsl_target :
  ~ (forall sk t, compile_fn sk t = Some compile_naga_wgsl_fn -> t <> Glsl).
Proof. intros H. exact (H SrcWgsl Glsl eq_refl eq_refl). Qed.

(** Claim C8, amended: [compile_fn] selects the IR-mediated
    transformation exactly for a WGSL source with the SPIR-V or GLSL
    target, so never with the WGSL target. *)
Theorem ir_pipeline_targets :
  forall sk t, compile_fn sk t = Some compile_naga_wgsl_fn <->
               sk = SrcWgsl /\ (t = Spirv \/ t = Glsl).
Proof. exact compile_fn_naga_targets. Qed.

End DispatchProofs.

(** ** Source-kind detection and the unreachable arm *)

Section GuessProofs.
Context {T : Toolchain}.

(** Take apart the string matches of [guess] in [H], one scrutinee at a
    time, closing the branches that cannot produce [H]'s right side. *)
Ltac split_string_match H :=
  repeat (simpl in H;
          match type of H with
          | context [match ?s with EmptyString => _ | String _ _ => _ end] =>
              is_var s; destruct s; try discriminate H
          | context [match ?a with Ascii _ _ _ _ _ _ _ _ => _ end] =>
              is_var a; destruct a; try discriminate H
          | context [match ?b with true => _ | false => _ end] =>
              is_var b; destruct b; try discriminate H
          end).

Lemma guess_some (p : Path) (k : ShaderSourceKind) :
  guess p = Some k ->
  extension p = Some (match k with SrcWgsl => "wgsl" | SrcGlsl => "glsl" end).
Proof.
  unfold guess. destruct (extension p) as [e|]; [|discriminate].
  intros H. split_string_match H; injection H as <-; reflexivity.
Qed.

(** Claim C9: detection reads the extension only, by exact,
    case-sensitive comparison with ["wgsl"] and ["glsl"]; any other
    extension, or none, makes a readable shader's [compile] fail with the
    guess error and leave the file system unchanged, and its worker moves
    on to reporting the failure. *)
Theorem guess_by_exact_extension :
  (forall p, guess p = Some SrcWgsl <-> extension p = Some "wgsl") /\
  (forall p, guess p = Some SrcGlsl <-> extension p = Some "glsl") /\
  (forall p, guess p = None <->
             extension p <> Some "wgsl" /\ extension p <> Some "glsl") /\
  (forall p q, extension p = extension q -> guess p = guess q) /\
  guess (path_of_string "blit.WGSL") = None /\
  guess (path_of_string "blit") = None /\
  (forall fs shader options src,
     guess (stc_path shader) = None ->
     fs_read fs (join (source_dir options) (stc_path shader)) = ROk src ->
     compile fs shader options = (RErr [guess_error], fs) /\
     forall {L} `{Logger L} (log : L) success,
       step_thread options shader TStarted fs log success =
         Some (TFailing [guess_error], fs, log, success)).
Proof.
  assert (Hprep : forall fs shader options src,
     guess (stc_path shader) = None ->
     fs_read fs (join (source_dir options) (stc_path shader)) = ROk src ->
     compile_prepare fs shader options = RErr [guess_error]).
  { intros fs shader options src Hg Hr.
    rewrite (compile_prepare_source _ _ _ src Hr).
    unfold compile_source. rewrite Hg. reflexivity. }
  split; [|split; [|split; [|split; [|split; [|split]]]]].
  - intros p. split; [apply guess_some | unfold guess; intros ->; reflexivity].
  - intros p. split; [apply guess_some | unfold guess; intros ->; reflexivity].
  - intros p. split.
    + intros Hn. split; intros He; unfold guess in Hn; rewrite He in Hn; discriminate.
    + intros [Hw Hgl]. destruct (guess p) as [k|] eqn:Hk; [|reflexivity].
      apply guess_some in Hk. destruct k; contradiction.
  - intros p q Hpq. unfold guess. rewrite Hpq. reflexivity.
  - reflexivity.
  - reflexivity.
  - intros fs shader options src Hg Hr. split.
    + apply compile_error_keeps_fs. exact (Hprep _ _ _ _ Hg Hr).
    + intros L HL log success. simpl. rewrite (Hprep _ _ _ _ Hg Hr). reflexivity.
Qed.

(** Claim C10: the [unreachable!()] arm of [compile_naga] (the WGSL
    target) exists but no call through [compile_source] reaches it:
    [compile_fn] never hands [compile_naga_wgsl] the WGSL target, and
    neither [compile_source] nor [compile] ever panics. *)
Theorem compile_source_never_reaches_unreachable :
  (forall module kind, compile_naga module kind Wgsl = RPanic) /\
  (forall sk t, compile_fn sk t = Some compile_naga_wgsl_fn -> t <> Wgsl) /\
  (forall source shader options, compile_source source shader options <> RPanic) /\
  (forall fs shader options, fst (compile fs shader options) <> RPanic).
Proof.
  split; [reflexivity | split; [| split]].
  - intros sk t H. apply compile_fn_naga_targets in H. intros ->. intuition discriminate.
  - exact compile_source_no_panic.
  - intros fs shader options. unfold compile.
    pose proof (compile_prepare_no_panic fs shader options) as Hn.
    destruct (compile_prepare fs shader options) as [[tp out]| e |]; [| discriminate | congruence].
    unfold fs_write. destruct (fs_writable fs tp); discriminate.
Qed.

End GuessProofs.

(** ** Output paths *)

Section PathProofs.
Context {T : Toolchain}.

Lemma string_length_app (s t : string) :
  String.length (s ++ t) = String.length s + String.length t.
Proof. induction s; simpl; congruence. Qed.

Lemma string_app_cancel_r (s1 s2 t : string) : (s1 ++ t = s2 ++ t)%string -> s1 = s2.
Proof.
  revert s2. induction s1 as [|c s1 IH]; intros [|c' s2] H; simpl in H.
  - reflexivity.
  - apply (f_equal String.length) in H. simpl in H. rewrite string_length_app in H. lia.
  - apply (f_equal String.length) in H. simpl in H. rewrite string_length_app in H. lia.
  - injection H as -> H. f_equal. apply IH, H.
Qed.

Lemma last_app_nonempty {A} (l l' : list A) (d : A) :
  l' <> [] -> last (l ++ l') d = last l' d.
Proof.
  intros Hne. induction l as [|a l IH]; [reflexivity|].
  simpl. destruct (l ++ l') eqn:E.
  - apply app_eq_nil in E. destruct E; contradiction.
  - exact IH.
Qed.

Lemma file_name_comps (a b : bool) (c c' : list string) :
  c' <> [] -> file_name (mkPath a (c ++ c')) = file_name (mkPath b c').
Proof.
  intros Hne. unfold file_name. simpl. rewrite map_app, last_app_nonempty; [reflexivity|].
  destruct c'; [contradiction | discriminate].
Qed.

Lemma file_name_nonempty (p : Path) : file_name p <> None -> p_comps p <> [].
Proof. destruct p as [a [|c cs]]; [unfold file_name; simpl; congruence | discriminate]. Qed.

Lemma file_name_last (p : Path) (f : string) :
  file_name p = Some f -> last (p_comps p) "" = f.
Proof.
  unfold file_name. destruct p as [a cs]. simpl.
  induction cs as [|c cs IH]; simpl; [discriminate|].
  destruct cs as [|c' cs].
  - simpl. destruct (_ || _); [discriminate | congruence].
  - intros H. apply IH, H.
Qed.

Lemma file_name_none_last (p : Path) :
  p_comps p <> [] -> file_name p = None ->
  let c := last (p_comps p) "" in c = ".." \/ c = "." \/ c = "".
Proof.
  destruct p as [a cs]. unfold file_name. simpl. intros Hne.
  assert (Hl : last (map Some cs) None = Some (last cs "")).
  { clear -Hne. induction cs as [|c cs IH]; [contradiction|].
    destruct cs as [|c' cs]; [reflexivity|]. simpl. simpl in IH. apply IH. discriminate. }
  rewrite Hl.
  destruct (String.eqb_spec (last cs "") ".."); [auto|].
  destruct (String.eqb_spec (last cs "") "."); [auto|].
  destruct (String.eqb_spec (last cs "") ""); [auto | discriminate].
Qed.

Lemma file_stem_some (p : Path) (f : string) :
  file_name p = Some f -> exists st, file_stem p = Some st.
Proof.
  intros Hf. unfold file_stem. rewrite Hf.
  destruct (rsplit_file_at_dot f) as [[b|] a] eqn:E; [eauto|].
  unfold rsplit_file_at_dot in E.
  destruct (String.eqb f ".."); [discriminate|].
  destruct (rsplit_dot f) as [[x y]|]; [destruct (String.eqb x ""); discriminate|].
  injection E as <-. eauto.
Qed.

Lemma set_extension_named (p : Path) (ext : string) (f : string) :
  file_name p = Some f ->
  exists st, file_stem p = Some st /\
    set_extension p ext =
      mkPath (p_abs p) (removelast (p_comps p) ++
                         [if String.eqb ext "" then st else (st ++ "." ++ ext)%string]).
Proof.
  intros Hf. destruct (file_stem_some p f Hf) as [st Hst].
  exists st. split; [exact Hst|]. unfold set_extension. rewrite Hst. reflexivity.
Qed.

Lemma set_extension_unnamed (p : Path) (ext : string) :
  file_name p = None -> set_extension p ext = p.
Proof. intros Hf. unfold set_extension, file_stem. rewrite Hf. reflexivity. Qed.

Lemma set_extension_length (p : Path) (ext : string) :
  List.length (p_comps (set_extension p ext)) = List.length (p_comps p).
Proof.
  destruct (file_name p) as [f|] eqn:Hf.
  - destruct (set_extension_named p ext f Hf) as [st [_ ->]]. simpl.
    pose proof (file_name_nonempty p ltac:(congruence)) as Hne.
    rewrite length_app. simpl.
    rewrite (app_removelast_last "" Hne) at 2. rewrite length_app. simpl. lia.
  - rewrite set_extension_unnamed; auto.
Qed.

Lemma set_extension_abs (p : Path) (ext : string) : p_abs (set_extension p ext) = p_abs p.
Proof. unfold set_extension. destruct (file_stem p); reflexivity. Qed.

(** The two shapes of a join with a relative argument. *)
Lemma join_cases (p : Path) :
  (p_abs p = false /\ p_comps p = [] /\ forall q, p_abs q = false -> join p q = q) \/
  (forall q, p_abs q = false -> join p q = mkPath (p_abs p) (p_comps p ++ drop_cur (p_comps q))).
Proof.
  destruct p as [[|] [|c cs]];
    [right | right | left; split; [reflexivity | split; [reflexivity|]] | right];
    intros q Hq; unfold join; rewrite Hq; reflexivity.
Qed.

Lemma drop_cur_no_lead (p : Path) : leading_cur p = false -> drop_cur (p_comps p) = p_comps p.
Proof.
  unfold leading_cur, drop_cur. destruct (p_comps p) as [|c r]; [reflexivity|].
  intros H. rewrite H. reflexivity.
Qed.

Lemma drop_cur_named (a b : bool) (cs : list string) (f : string) :
  file_name (mkPath a cs) = Some f ->
  drop_cur cs <> [] /\ file_name (mkPath b (drop_cur cs)) = Some f.
Proof.
  intros H. destruct cs as [|c r]; [discriminate H|].
  unfold drop_cur. destruct (String.eqb_spec c ".") as [->|Hc].
  - destruct r as [|c2 r]; [discriminate H|].
    change ("." :: c2 :: r) with (["."] ++ c2 :: r) in H.
    rewrite (file_name_comps _ b) in H by discriminate.
    split; [discriminate | exact H].
  - split; [discriminate | exact H].
Qed.

Lemma drop_cur_removelast (cs : list string) (y : string) :
  y <> "." -> drop_cur (removelast cs ++ [y]) = removelast (drop_cur cs) ++ [y].
Proof.
  intros Hy.
  assert (Hd : drop_cur [y] = [y]).
  { unfold drop_cur. destruct (String.eqb_spec y "."); [contradiction | reflexivity]. }
  destruct cs as [|c r]; [exact Hd|].
  unfold drop_cur at 2. destruct (String.eqb_spec c ".") as [->|Hc].
  - destruct r as [|c2 r]; [exact Hd|].
    change (removelast ("." :: c2 :: r)) with ("." :: removelast (c2 :: r)).
    reflexivity.
  - destruct r as [|c2 r]; [exact Hd|].
    change (removelast (c :: c2 :: r)) with (c :: removelast (c2 :: r)).
    simpl. destruct (String.eqb_spec c "."); [contradiction | reflexivity].
Qed.

Lemma extended_not_cur (st ext : string) : ext <> "" -> (st ++ "." ++ ext)%string <> ".".
Proof.
  intros He H. apply (f_equal String.length) in H.
  rewrite string_length_app in H. simpl in H. destruct ext; [contradiction | simpl in H; lia].
Qed.

(** For a relative path with a file name, extending the join is joining
    the extended path. *)
Lemma set_extension_join (base rel : Path) (ext : string) :
  file_name rel <> None -> ext <> "" ->
  set_extension (join base rel) ext = join base (set_extension rel ext).
Proof.
  intros Hn He. destruct (p_abs rel) eqn:Ha.
  - unfold join. rewrite set_extension_abs, Ha. reflexivity.
  - destruct (file_name rel) as [f|] eqn:Hf; [|congruence].
    assert (Hsa : p_abs (set_extension rel ext) = false) by (rewrite set_extension_abs; exact Ha).
    destruct (join_cases base) as [[_ [_ Hj]] | Hj]; rewrite !Hj by assumption; [reflexivity|].
    destruct rel as [a cs]. simpl in Ha. subst a. cbn [p_comps p_abs] in *.
    destruct (drop_cur_named false (p_abs base) cs f Hf) as [Hne Hf'].
    assert (Hj' : file_name (mkPath (p_abs base) (p_comps base ++ drop_cur cs)) = Some f).
    { rewrite (file_name_comps _ (p_abs base)) by exact Hne. exact Hf'. }
    destruct (set_extension_named _ ext f Hj') as [st1 [Hs1 ->]].
    destruct (set_extension_named _ ext f Hf) as [st2 [Hs2 ->]].
    assert (st1 = st2).
    { unfold file_stem in Hs1, Hs2. rewrite Hj' in Hs1. rewrite Hf in Hs2. congruence. }
    subst st2. simpl. f_equal.
    destruct (String.eqb_spec ext "") as [|_]; [contradiction|].
    rewrite drop_cur_removelast by (apply extended_not_cur, He).
    rewrite removelast_app by exact Hne. rewrite app_assoc. reflexivity.
Qed.

Lemma target_extension_long (t : Target) : 3 <= String.length (target_extension t).
Proof. destruct t; simpl; lia. Qed.

Lemma target_path_of_rel (options : Options) (rel : Path) :
  p_abs rel = false -> leading_cur rel = false ->
  target_path_of options rel =
    set_extension (mkPath (p_abs (target_dir options)) (p_comps (target_dir options) ++ p_comps rel))
      (target_extension (target options)).
Proof.
  intros Ha Hl. unfold target_path_of.
  destruct (join_cases (target_dir options)) as [[Ht1 [Ht2 Hj]] | Hj]; rewrite Hj by exact Ha.
  - rewrite Ht1, Ht2. destruct rel as [a cs]. simpl in Ha. subst a. reflexivity.
  - rewrite (drop_cur_no_lead rel Hl). reflexivity.
Qed.

Lemma file_stem_same_name (p q : Path) : file_name p = file_name q -> file_stem p = file_stem q.
Proof. unfold file_stem. intros ->. reflexivity. Qed.

(** The extended name of a file is neither ["."], [".."] nor empty. *)
Lemma extended_name_normal (st : string) (t : Target) :
  let x := (st ++ "." ++ target_extension t)%string in
  ~ (x = ".." \/ x = "." \/ x = "").
Proof.
  intros x Hx. assert (Hl : 4 <= String.length x).
  { unfold x. rewrite string_length_app. simpl. pose proof (target_extension_long t). lia. }
  destruct Hx as [Hx | [Hx | Hx]]; rewrite Hx in Hl; simpl in Hl; lia.
Qed.

Lemma target_extension_nonempty (t : Target) : String.eqb (target_extension t) "" = false.
Proof. destruct t; reflexivity. Qed.

Lemma named_unnamed_distinct (options : Options) (rel1 rel2 : Path) (f : string) :
  p_abs rel1 = false -> p_abs rel2 = false ->
  leading_cur rel1 = false -> leading_cur rel2 = false ->
  file_name rel1 = Some f -> file_name rel2 = None -> p_comps rel2 <> [] ->
  target_path_of options rel1 <> target_path_of options rel2.
Proof.
  intros Ha1 Ha2 Hl1 Hl2 Hf1 Hf2 Hne2 H.
  rewrite !target_path_of_rel in H by assumption.
  set (tc := p_comps (target_dir options)) in H.
  pose proof (file_name_nonempty rel1 ltac:(congruence)) as Hne1.
  assert (Hj1 : file_name (mkPath (p_abs (target_dir options)) (tc ++ p_comps rel1)) = Some f).
  { rewrite (file_name_comps _ (p_abs rel1)) by exact Hne1. destruct rel1; exact Hf1. }
  assert (Hj2 : file_name (mkPath (p_abs (target_dir options)) (tc ++ p_comps rel2)) = None).
  { rewrite (file_name_comps _ (p_abs rel2)) by exact Hne2. destruct rel2; exact Hf2. }
  destruct (set_extension_named _ (target_extension (target options)) f Hj1) as [st [_ Hs]].
  rewrite Hs, set_extension_unnamed in H by exact Hj2.
  rewrite target_extension_nonempty in H.
  injection H as Hc.
  apply (f_equal (fun l => last l "")) in Hc. simpl in Hc.
  rewrite last_last, last_app_nonempty in Hc by exact Hne2.
  pose proof (file_name_none_last rel2 Hne2 Hf2) as Hlast. simpl in Hlast.
  rewrite <- Hc in Hlast. exact (extended_name_normal st (target options) Hlast).
Qed.

Lemma rel_eq (p q : Path) : p_abs p = p_abs q -> p_comps p = p_comps q -> p = q.
Proof. destruct p, q; simpl; congruence. Qed.

(** Claim C6: [compile] writes to [target_dir] joined with the source
    path taken relative to [source_dir] (by [diff_paths]), its extension
    replaced by the target's (["spv"], ["wgsl"], ["glsl"]); for a path
    naming a file this is replacing the extension first and joining
    after. For a fixed [Options], two relative source paths with
    different stems, neither starting with a ["."] component, never get
    the same output path; the join onto a non-empty target root drops a
    leading ["."], so [./a.wgsl] and [a.wgsl] share one. *)
Theorem output_path_derivation :
  (forall t, target_extension t =
             match t with Spirv => "spv" | Wgsl => "wgsl" | Glsl => "glsl" end) /\
  (forall fs shader options target_path output,
     compile_prepare fs shader options = ROk (target_path, output) ->
     exists base_path,
       diff_paths (join (source_dir options) (stc_path shader)) (source_dir options)
         = Some base_path /\
       target_path = set_extension (join (target_dir options) base_path)
                       (target_extension (target options)) /\
       (file_name base_path <> None ->
        target_path = join (target_dir options)
                        (set_extension base_path (target_extension (target options))))) /\
  (forall options rel1 rel2,
     p_abs rel1 = false -> p_abs rel2 = false ->
     leading_cur rel1 = false -> leading_cur rel2 = false ->
     path_stem rel1 <> path_stem rel2 ->
     target_path_of options rel1 <> target_path_of options rel2).
Proof.
  split; [intros []; reflexivity | split].
  - intros fs shader options tp out Hp.
    unfold compile_prepare, bind, context at 1, fs_read in Hp.
    destruct (fs_file fs _) as [src|]; [|discriminate].
    destruct (compile_source src shader options); try discriminate.
    unfold ocontext in Hp. destruct (diff_paths _ _) as [base|]; [|discriminate].
    injection Hp as <- _. exists base. split; [reflexivity | split; [reflexivity|]].
    intros Hn. apply set_extension_join; [exact Hn | destruct (target options); discriminate].
  - intros options rel1 rel2 Ha1 Ha2 Hl1 Hl2 Hst H.
    pose proof (f_equal (fun p => List.length (p_comps p)) H) as Hlen.
    simpl in Hlen. rewrite !target_path_of_rel, !set_extension_length in Hlen by assumption.
    simpl in Hlen. rewrite !length_app in Hlen.
    destruct (p_comps rel1) as [|c1 cs1] eqn:Hc1.
    + destruct (p_comps rel2) as [|c2 cs2] eqn:Hc2; [|simpl in Hlen; lia].
      apply Hst. f_equal. apply rel_eq; congruence.
    + assert (Hne1 : p_comps rel1 <> []) by congruence.
      assert (Hne2 : p_comps rel2 <> []).
      { intros E. rewrite E in Hlen. simpl in Hlen. lia. }
      rewrite <- Hc1 in *.
      destruct (file_name rel1) as [f1|] eqn:Hf1, (file_name rel2) as [f2|] eqn:Hf2.
      * rewrite !target_path_of_rel in H by assumption.
        set (tc := p_comps (target_dir options)) in H.
        assert (Hj1 : file_name (mkPath (p_abs (target_dir options)) (tc ++ p_comps rel1)) = Some f1).
        { rewrite (file_name_comps _ (p_abs rel1)) by exact Hne1. destruct rel1; exact Hf1. }
        assert (Hj2 : file_name (mkPath (p_abs (target_dir options)) (tc ++ p_comps rel2)) = Some f2).
        { rewrite (file_name_comps _ (p_abs rel2)) by exact Hne2. destruct rel2; exact Hf2. }
        destruct (set_extension_named _ (target_extension (target options)) f1 Hj1) as [st1 [Hs1 E1]].
        destruct (set_extension_named _ (target_extension (target options)) f2 Hj2) as [st2 [Hs2 E2]].
        rewrite E1, E2, target_extension_nonempty in H. simpl in H.
        injection H as Hc.
        rewrite !removelast_app in Hc by assumption.
        rewrite <- !app_assoc in Hc. apply app_inv_head in Hc.
        apply app_inj_tail in Hc. destruct Hc as [Hrl Hx].
        apply string_app_cancel_r in Hx. subst st2.
        apply Hst. unfold path_stem.
        destruct (set_extension_named rel1 "" f1 Hf1) as [s1 [Hs1' ->]].
        destruct (set_extension_named rel2 "" f2 Hf2) as [s2 [Hs2' ->]].
        assert (s1 = st1).
        { rewrite <- (file_stem_same_name _ _ (eq_trans Hj1 (eq_sym Hf1))) in Hs1'. congruence. }
        assert (s2 = st1).
        { rewrite <- (file_stem_same_name _ _ (eq_trans Hj2 (eq_sym Hf2))) in Hs2'. congruence. }
        subst. rewrite Ha1, Ha2, Hrl. reflexivity.
      * exact (named_unnamed_distinct options rel1 rel2 f1 Ha1 Ha2 Hl1 Hl2 Hf1 Hf2 Hne2 H).
      * exact (named_unnamed_distinct options rel2 rel1 f2 Ha2 Ha1 Hl2 Hl1 Hf2 Hf1 Hne1 (eq_sym H)).
      * rewrite !target_path_of_rel, !set_extension_unnamed in H by
          (try assumption; rewrite (file_name_comps _ (p_abs rel1)) by assumption; destruct rel1; assumption).
        injection H as Hc. apply app_inv_head in Hc.
        apply Hst. f_equal. apply rel_eq; congruence.
Qed.

End PathProofs.

(** ** Discovery *)

Section GatherProofs.
Context {T : Toolchain}.

Lemma concat_map_rev_perm {A B} (f : A -> list B) (l : list A) :
  Permutation (List.concat (map f (rev l))) (List.concat (map f l)).
Proof.
  induction l as [|a l IH]; [reflexivity|].
  simpl. rewrite map_app, concat_app. simpl. rewrite app_nil_r.
  eapply perm_trans; [apply Permutation_app_comm|]. apply Permutation_app_head, IH.
Qed.

Lemma list_sum_app (l l' : list nat) : list_sum (l ++ l') = list_sum l + list_sum l'.
Proof. induction l; simpl; lia. Qed.

Lemma list_sum_rev (l : list nat) : list_sum (rev l) = list_sum l.
Proof. induction l; simpl; [reflexivity|]. rewrite list_sum_app. simpl. lia. Qed.

Lemma push_subdirectories (d : Path) (subs : list string) (q : list Path) :
  fold_left (fun q subdirectory => join d (path_of_string subdirectory) :: q) subs q =
  rev (map (fun n => join d (path_of_string n)) subs) ++ q.
Proof.
  revert q. induction subs as [|n subs IH]; intros q; [reflexivity|].
  simpl. rewrite IH, <- app_assoc. reflexivity.
Qed.

Lemma resolve_cons (root : Path) (n : string) (anc : list string) (decl : string) :
  resolve root (n :: anc) decl = resolve (join root (path_of_string n)) anc decl.
Proof. reflexivity. Qed.

Lemma expected_node (d : Path) (decls : list (string * Shader)) (subs : list (string * mtree)) :
  expected_entries d (MNode decls subs) =
  map (shader_to_compile d) decls ++ stack_expected (map (child d) subs).
Proof.
  unfold expected_entries, stack_expected. simpl. rewrite map_app, map_map.
  f_equal; [apply map_ext; intros [n sh]; reflexivity|].
  rewrite concat_map, !map_map. f_equal. apply map_ext. intros [n t']. simpl.
  rewrite map_map. apply map_ext. intros [anc [name sh]]. reflexivity.
Qed.

Lemma stack_size_step (d : Path) decls subs rest :
  stack_size ((d, MNode decls subs) :: rest) = S (stack_size (rev (map (child d) subs) ++ rest)).
Proof.
  unfold stack_size. simpl. rewrite map_app, list_sum_app, map_rev, list_sum_rev, map_map.
  f_equal. f_equal. f_equal. apply map_ext. intros [n t']. reflexivity.
Qed.

Lemma stack_bad_step (d : Path) decls subs rest :
  Permutation (stack_bad (rev (map (child d) subs) ++ rest))
              (stack_bad ((d, MNode decls subs) :: rest)).
Proof.
  unfold stack_bad. rewrite map_app, concat_app. simpl.
  apply Permutation_app_tail.
  eapply perm_trans; [apply concat_map_rev_perm|].
  rewrite map_map. apply Permutation_refl'. f_equal. apply map_ext. intros [n t']. reflexivity.
Qed.

Lemma stack_expected_step (d : Path) decls subs rest :
  Permutation (map (shader_to_compile d) decls ++ stack_expected (rev (map (child d) subs) ++ rest))
              (stack_expected ((d, MNode decls subs) :: rest)).
Proof.
  unfold stack_expected at 2. simpl. fold (stack_expected rest).
  rewrite expected_node, <- app_assoc. apply Permutation_app_head.
  unfold stack_expected. rewrite map_app, concat_app. apply Permutation_app_tail.
  apply concat_map_rev_perm.
Qed.

Lemma realized_children (fs : FS) (d : Path) subs :
  Forall (fun p => realized fs (join d (path_of_string (fst p))) (snd p)) subs ->
  Forall (fun p => realized fs (fst p) (snd p)) (map (child d) subs).
Proof.
  intros H. apply Forall_map. eapply Forall_impl; [|exact H]. intros [n t'] Hr. exact Hr.
Qed.

Lemma queued_after_node (d : Path) (m : Manifest) subs rest :
  subdirectories m = map fst subs ->
  fold_left (fun q subdirectory => join d (path_of_string subdirectory) :: q)
    (subdirectories m) (map fst rest) =
  map fst (rev (map (child d) subs) ++ rest).
Proof.
  intros Hs. rewrite push_subdirectories, Hs, map_app, map_rev, !map_map. reflexivity.
Qed.

Lemma gather_loop_good (fs : FS) :
  forall fuel stk acc,
    Forall (fun p => realized fs (fst p) (snd p)) stk ->
    stack_bad stk = [] ->
    stack_size stk < fuel ->
    exists ws, gather_loop fuel fs (map fst stk) acc = Some (ROk ws) /\
               Permutation ws (acc ++ stack_expected stk).
Proof.
  induction fuel as [|fuel IH]; intros stk acc Hr Hb Hs; [lia|].
  destruct stk as [|[d t] rest].
  - exists acc. split; [reflexivity | rewrite app_nil_r; reflexivity].
  - inversion Hr as [|? ? Hd Hrest]; subst. simpl in Hd.
    destruct Hd as [d e Hm | d m subs Hm Hsub Hch].
    + unfold stack_bad in Hb. simpl in Hb. discriminate.
    + simpl. rewrite Hm. rewrite (queued_after_node d m subs rest Hsub).
      destruct (IH (rev (map (child d) subs) ++ rest)
                   (acc ++ map (shader_to_compile d) (shaders m))) as [ws [Hg Hp]].
      * apply Forall_app. split; [apply Forall_rev, realized_children, Hch | exact Hrest].
      * apply Permutation_nil. rewrite <- Hb. symmetry. apply stack_bad_step.
      * rewrite stack_size_step in Hs. lia.
      * exists ws. split; [exact Hg|].
        eapply perm_trans; [exact Hp|]. rewrite <- app_assoc.
        apply Permutation_app_head, stack_expected_step.
Qed.

Lemma gather_loop_bad (fs : FS) :
  forall fuel stk acc,
    Forall (fun p => realized fs (fst p) (snd p)) stk ->
    stack_bad stk <> [] ->
    stack_size stk < fuel ->
    exists e d, gather_loop fuel fs (map fst stk) acc = Some (RErr e) /\
                In d (stack_bad stk) /\ read_manifest fs d = RErr e.
Proof.
  induction fuel as [|fuel IH]; intros stk acc Hr Hb Hs; [lia|].
  destruct stk as [|[d t] rest]; [contradiction|].
  inversion Hr as [|? ? Hd Hrest]; subst. simpl in Hd.
  destruct Hd as [d e Hm | d m subs Hm Hsub Hch].
  - exists e, d. simpl. rewrite Hm. split; [reflexivity|]. split; [|reflexivity].
    unfold stack_bad. simpl. left. reflexivity.
  - simpl. rewrite Hm. rewrite (queued_after_node d m subs rest Hsub).
    pose proof (stack_bad_step d (shaders m) subs rest) as Hperm.
    destruct (IH (rev (map (child d) subs) ++ rest)
                 (acc ++ map (shader_to_compile d) (shaders m))) as [e [d' [Hg [Hin Hm']]]].
    + apply Forall_app. split; [apply Forall_rev, realized_children, Hch | exact Hrest].
    + intros E. rewrite E in Hperm. apply Permutation_nil in Hperm. contradiction.
    + rewrite stack_size_step in Hs. lia.
    + exists e, d'. split; [exact Hg|]. split; [|exact Hm'].
      exact (Permutation_in _ Hperm Hin).
Qed.

Lemma gather_loop_err (fs : FS) :
  forall fuel queued acc e,
    gather_loop fuel fs queued acc = Some (RErr e) -> exists d, read_manifest fs d = RErr e.
Proof.
  induction fuel as [|fuel IH]; intros queued acc e H; [discriminate|].
  destruct queued as [|d queued]; simpl in H; [discriminate|].
  destruct (read_manifest fs d) eqn:Hm.
  - eapply IH, H.
  - injection H as <-. eauto.
  - discriminate.
Qed.

Lemma read_manifest_names (fs : FS) (d : Path) (e : error) :
  read_manifest fs d = RErr e -> names_manifest d e.
Proof.
  unfold read_manifest, bind, context. intros H.
  destruct (fs_read_to_string fs _) as [s| e' |]; [| injection H as <-; eexists; left; reflexivity | discriminate].
  destruct (from_toml s) as [m| e' |]; [discriminate | injection H as <-; eexists; right; reflexivity | discriminate].
Qed.

Lemma stack_single (d : Path) (t : mtree) :
  stack_bad [(d, t)] = bad_dirs d t /\ stack_size [(d, t)] = msize t /\
  stack_expected [(d, t)] = expected_entries d t.
Proof.
  unfold stack_bad, stack_size, stack_expected. simpl. rewrite !app_nil_r. split; [|split]; [reflexivity | lia | reflexivity].
Qed.

End GatherProofs.

Section DiscoveryClaims.
Context {T : Toolchain}.

(** Claim C2 (amended): for a manifest tree held by the file system at
    [source_dir] with every manifest readable and well-formed, the loop
    ends within (number of manifests + 1) iterations and [gather_shaders]
    returns one entry per declaration (N in all); up to order, the entry
    of a declaration has its name and kind, and as path [source_dir]
    joined with each ancestor subdirectory name, root to leaf, then with
    the declared path: the path includes the source root itself. *)
Theorem gather_shaders_entries :
  forall fuel fs source_dir t,
    realized fs source_dir t -> bad_dirs source_dir t = [] -> msize t < fuel ->
    exists ws, gather_shaders fuel fs source_dir = Some (ROk ws) /\
      List.length ws = List.length (decls_of t) /\
      Permutation ws (expected_entries source_dir t).
Proof.
  intros fuel fs source_dir t Hr Hb Hs.
  destruct (stack_single source_dir t) as [Hsb [Hss Hse]].
  destruct (gather_loop_good fs fuel [(source_dir, t)] []) as [ws [Hg Hp]].
  - repeat constructor. exact Hr.
  - rewrite Hsb. exact Hb.
  - rewrite Hss. exact Hs.
  - exists ws. rewrite Hse in Hp. simpl in Hp. split; [exact Hg|]. split; [|exact Hp].
    rewrite (Permutation_length Hp). unfold expected_entries. apply length_map.
Qed.

(** Claim C4: if some manifest of the tree is unreadable or malformed,
    [gather_shaders] ends with an error whose outermost message names the
    manifest file of such a directory, and no worklist; every error of
    [gather_shaders] is a manifest's read or parse error naming it; and
    [build] then returns that error with the file system and the logger
    untouched: nothing is compiled, logged or written. *)
Theorem discovery_failure_aborts_build :
  (forall fuel fs source_dir t,
     realized fs source_dir t -> bad_dirs source_dir t <> [] -> msize t < fuel ->
     exists e d, gather_shaders fuel fs source_dir = Some (RErr e) /\
                 In d (bad_dirs source_dir t) /\ names_manifest d e) /\
  (forall fuel fs source_dir e,
     gather_shaders fuel fs source_dir = Some (RErr e) ->
     exists d, read_manifest fs d = RErr e /\ names_manifest d e) /\
  (forall {L} `{Logger L} fuel sched options fs (log : L) e,
     gather_shaders fuel fs (source_dir options) = Some (RErr e) ->
     build fuel sched options fs log = Some (BuildErr e, fs, log)).
Proof.
  split; [|split].
  - intros fuel fs source_dir t Hr Hb Hs.
    destruct (stack_single source_dir t) as [Hsb [Hss _]].
    destruct (gather_loop_bad fs fuel [(source_dir, t)] []) as [e [d [Hg [Hin Hm]]]].
    + repeat constructor. exact Hr.
    + rewrite Hsb. exact Hb.
    + rewrite Hss. exact Hs.
    + exists e, d. rewrite Hsb in Hin. split; [exact Hg|]. split; [exact Hin|].
      apply (read_manifest_names fs), Hm.
  - intros fuel fs source_dir e Hg.
    destruct (gather_loop_err fs _ _ _ _ Hg) as [d Hd].
    exists d. split; [exact Hd|]. apply (read_manifest_names fs), Hd.
  - intros L HL fuel sched options fs log e Hg. unfold build. rewrite Hg. reflexivity.
Qed.

End DiscoveryClaims.

(** ** The build coordinator *)

Section BuildProofs.
Context {T : Toolchain} {L : Type} `{Logger L}.

Lemma step_thread_spec options shader ts fs (log : L) success ts' fs' log' success' :
  step_thread options shader ts fs log success = Some (ts', fs', log', success') ->
  is_done ts = false /\ tmeasure ts' < tmeasure ts /\
  success' = success && negb (is_failed ts') /\ is_panicked ts' = false.
Proof.
  destruct ts; simpl; intros Hs.
  - injection Hs as <- <- <- <-. simpl. rewrite andb_true_r. repeat split; lia.
  - pose proof (compile_prepare_no_panic fs shader options) as Hn.
    destruct (compile_prepare fs shader options) as [[tp out]| e |]; [| | congruence];
      injection Hs as <- <- <- <-; simpl; rewrite andb_true_r; repeat split; lia.
  - unfold fs_write in Hs. destruct (fs_writable fs target_path);
      injection Hs as <- <- <- <-; simpl; rewrite andb_true_r; repeat split; lia.
  - injection Hs as <- <- <- <-. simpl. rewrite andb_true_r. repeat split; lia.
  - injection Hs as <- <- <- <-. simpl. rewrite andb_false_r. repeat split; lia.
  - discriminate.
Qed.

Lemma step_thread_progress options shader ts fs (log : L) success :
  is_done ts = false -> exists r, step_thread options shader ts fs log success = Some r.
Proof.
  destruct ts; simpl; intros Hd; try discriminate; eauto.
  - destruct (compile_prepare fs shader options) as [[tp out]| e |]; eauto.
  - destruct (fs_write fs target_path output) as [[u| e |] fs']; eauto.
Qed.

Lemma length_replace_nth {A} (n : nat) (x : A) (l : list A) :
  List.length (replace_nth n x l) = List.length l.
Proof. revert n. induction l; intros [|n]; simpl; auto. Qed.

Lemma nth_replace_same {A} (n : nat) (x y : A) (l : list A) :
  nth_error l n = Some y -> nth_error (replace_nth n x l) n = Some x.
Proof. revert n. induction l; intros [|n]; simpl; try discriminate; auto. Qed.

Lemma nth_replace_other {A} (n m : nat) (x : A) (l : list A) :
  n <> m -> nth_error (replace_nth n x l) m = nth_error l m.
Proof.
  revert n m. induction l; intros [|n] [|m] Hnm; simpl; auto; try congruence.
Qed.

Lemma map_replace_nth {A B} (f : A -> B) (n : nat) (x y : A) (l : list A) :
  nth_error l n = Some y -> f x = f y -> map f (replace_nth n x l) = map f l.
Proof.
  revert n. induction l; intros [|n] Hn Hf; simpl in *; try discriminate.
  - injection Hn as ->. congruence.
  - f_equal. apply IHl; assumption.
Qed.

Lemma forallb_replace_nth {A} (f : A -> bool) (n : nat) (x y : A) (l : list A) :
  nth_error l n = Some y -> f y = true ->
  forallb f (replace_nth n x l) = forallb f l && f x.
Proof.
  revert n. induction l as [|a l IH]; intros [|n] Hn Hf; simpl in *; try discriminate.
  - injection Hn as ->. rewrite Hf. simpl. rewrite andb_comm. reflexivity.
  - rewrite (IH n Hn Hf). rewrite andb_assoc. reflexivity.
Qed.

Lemma not_done_not_failed (ts : tstate) : is_done ts = false -> is_failed ts = false /\ is_panicked ts = false.
Proof. destruct ts; simpl; try discriminate; auto. Qed.

(** What one step of the coordinator preserves and changes. *)
Lemma step_spec options i (st st' : cstate L) :
  step options i st = Some st' ->
  exists shader ts ts',
    nth_error (c_threads st) i = Some (shader, ts) /\
    c_threads st' = replace_nth i (shader, ts') (c_threads st) /\
    is_done ts = false /\ tmeasure ts' < tmeasure ts /\
    c_success st' = c_success st && negb (is_failed ts') /\ is_panicked ts' = false.
Proof.
  unfold step. destruct (nth_error (c_threads st) i) as [[shader ts]|] eqn:Hn; [|discriminate].
  destruct (step_thread options shader ts (c_fs st) (c_log st) (c_success st))
    as [[[[ts' fs'] log'] success']|] eqn:Hs; [|discriminate].
  intros E. injection E as <-.
  destruct (step_thread_spec _ _ _ _ _ _ _ _ _ _ Hs) as [Hd [Hm [Hsu Hp]]].
  exists shader, ts, ts'. simpl. auto 6.
Qed.

Lemma step_none options i (st : cstate L) :
  step options i st = None ->
  match nth_error (c_threads st) i with Some (_, ts) => is_done ts = true | None => True end.
Proof.
  unfold step. destruct (nth_error (c_threads st) i) as [[shader ts]|]; [|auto].
  destruct (is_done ts) eqn:Hd; [auto|].
  destruct (step_thread_progress options shader ts (c_fs st) (c_log st) (c_success st) Hd)
    as [[[[ts' fs'] log'] success'] ->].
  discriminate.
Qed.

(** The invariant of the workers' run: same worklist, no panic, and the
    flag consistent with the finished workers. *)
Lemma step_invariant options i (st st' : cstate L) :
  step options i st = Some st' ->
  map fst (c_threads st') = map fst (c_threads st) /\
  (flag_consistent st -> flag_consistent st') /\
  (forallb (fun p => negb (is_panicked (snd p))) (c_threads st) = true ->
   forallb (fun p => negb (is_panicked (snd p))) (c_threads st') = true).
Proof.
  intros Hs. destruct (step_spec _ _ _ _ Hs) as [shader [ts [ts' [Hn [Ht [Hd [_ [Hsu Hp]]]]]]]].
  destruct (not_done_not_failed ts Hd) as [Hf Hpn].
  unfold flag_consistent. rewrite Ht. split; [|split].
  - apply (map_replace_nth fst i _ (shader, ts)); auto.
  - intros Hc. rewrite Hsu, Hc.
    rewrite (forallb_replace_nth _ i _ (shader, ts)); simpl; auto. rewrite Hf. reflexivity.
  - intros Hc. rewrite (forallb_replace_nth _ i _ (shader, ts)); simpl; auto.
    + rewrite Hc, Hp. reflexivity.
    + rewrite Hpn. reflexivity.
Qed.

Lemma run_invariant options sched (st : cstate L) :
  map fst (c_threads (run options sched st)) = map fst (c_threads st) /\
  (flag_consistent st -> flag_consistent (run options sched st)) /\
  (forallb (fun p => negb (is_panicked (snd p))) (c_threads st) = true ->
   forallb (fun p => negb (is_panicked (snd p))) (c_threads (run options sched st)) = true).
Proof.
  revert st. induction sched as [|i sched IH]; intros st; [simpl; auto|].
  simpl. destruct (step options i st) as [st'|] eqn:Hs.
  - destruct (step_invariant _ _ _ _ Hs) as [Hm [Hf Hp]].
    destruct (IH st') as [Hm' [Hf' Hp']]. split; [congruence | auto].
  - apply IH.
Qed.

Lemma run_length options sched (st : cstate L) :
  List.length (c_threads (run options sched st)) = List.length (c_threads st).
Proof.
  destruct (run_invariant options sched st) as [Hm _].
  rewrite <- (length_map fst), Hm, length_map. reflexivity.
Qed.

Lemma run_done_stays options sched (st : cstate L) i :
  done_at st i -> done_at (run options sched st) i.
Proof.
  revert st. induction sched as [|j sched IH]; intros st Hd; [exact Hd|].
  simpl. destruct (step options j st) as [st'|] eqn:Hs; apply IH; [|exact Hd].
  destruct (step_spec _ _ _ _ Hs) as [shader [ts [ts' [Hn [Ht [Hnd _]]]]]].
  unfold done_at in *. rewrite Ht.
  destruct (Nat.eq_dec j i) as [<-|Hji].
  - rewrite Hn in Hd. congruence.
  - rewrite nth_replace_other by exact Hji. exact Hd.
Qed.

Lemma run_repeat options (st : cstate L) i shader ts k :
  nth_error (c_threads st) i = Some (shader, ts) ->
  exists ts', nth_error (c_threads (run options (repeat i k) st)) i = Some (shader, ts') /\
              tmeasure ts' <= tmeasure ts - k.
Proof.
  revert st ts. induction k as [|k IH]; intros st ts Hn.
  - exists ts. split; [exact Hn | lia].
  - simpl. destruct (step options i st) as [st'|] eqn:Hs.
    + destruct (step_spec _ _ _ _ Hs) as [shader' [ts0 [ts' [Hn' [Ht [_ [Hm _]]]]]]].
      rewrite Hn in Hn'. injection Hn' as <- <-.
      assert (Hn2 : nth_error (c_threads st') i = Some (shader, ts')).
      { rewrite Ht. eapply nth_replace_same, Hn. }
      destruct (IH st' ts' Hn2) as [ts'' [Hr Hm']]. exists ts''. split; [exact Hr | lia].
    + pose proof (step_none _ _ _ Hs) as Hd. rewrite Hn in Hd.
      assert (Hz : tmeasure ts = 0) by (destruct ts; simpl in *; congruence).
      destruct (IH st ts Hn) as [ts'' [Hr Hm']]. exists ts''. split; [exact Hr | lia].
Qed.

Lemma tmeasure_le (ts : tstate) : tmeasure ts <= 5.
Proof. destruct ts; simpl; lia. Qed.

Lemma tmeasure_done (ts : tstate) : tmeasure ts = 0 -> is_done ts = true.
Proof. destruct ts; simpl; congruence. Qed.

Lemma run_app options (l1 l2 : list nat) (st : cstate L) :
  run options (l1 ++ l2) st = run options l2 (run options l1 st).
Proof. unfold run. apply fold_left_app. Qed.

Lemma run_flat_repeat options (l : list nat) (st : cstate L) :
  (forall i, In i l -> i < List.length (c_threads st)) ->
  forall i, In i l -> done_at (run options (flat_map (fun i => repeat i 5) l) st) i.
Proof.
  revert st. induction l as [|a l IH]; intros st Hl i Hi; [contradiction|].
  change (flat_map (fun i => repeat i 5) (a :: l))
    with (repeat a 5 ++ flat_map (fun i => repeat i 5) l).
  rewrite run_app.
  destruct Hi as [<- | Hi].
  - apply run_done_stays.
    assert (Ha : a < List.length (c_threads st)) by (apply Hl; left; reflexivity).
    destruct (nth_error (c_threads st) a) as [[shader ts]|] eqn:Hn;
      [| apply nth_error_None in Hn; lia].
    destruct (run_repeat options st a shader ts 5 Hn) as [ts' [Hr Hm]].
    unfold done_at. rewrite Hr. apply tmeasure_done. pose proof (tmeasure_le ts). lia.
  - apply IH; [|exact Hi].
    intros j Hj. rewrite run_length. apply Hl. right. exact Hj.
Qed.

Lemma forallb_from_nth {A} (f : A -> bool) (l : list A) :
  (forall i, i < List.length l ->
     match nth_error l i with Some x => f x = true | None => False end) ->
  forallb f l = true.
Proof.
  induction l as [|a l IH]; intros Hi; [reflexivity|].
  simpl. apply andb_true_intro. split.
  - apply (Hi 0). simpl. lia.
  - apply IH. intros i Hlt. apply (Hi (S i)). simpl. lia.
Qed.

Lemma finish_all_done options (st : cstate L) :
  forallb (fun p => is_done (snd p)) (c_threads (finish options st)) = true.
Proof.
  apply forallb_from_nth. intros i Hi. unfold finish in *.
  rewrite run_length in Hi.
  pose proof (run_flat_repeat options (seq 0 (List.length (c_threads st))) st) as Hr.
  specialize (Hr ltac:(intros j Hj; apply in_seq in Hj; lia) i ltac:(apply in_seq; lia)).
  unfold done_at in Hr.
  destruct (nth_error _ i) as [[shader ts]|]; [exact Hr | contradiction].
Qed.

End BuildProofs.

Section BuildClaims.
Context {T : Toolchain}.

Lemma forallb_false_exists {A} (f : A -> bool) (l : list A) :
  forallb f l = false <-> Exists (fun x => f x = false) l.
Proof.
  induction l as [|a l IH]; simpl.
  - split; [discriminate | intros Hx; inversion Hx].
  - destruct (f a) eqn:Ha; simpl.
    + rewrite IH. split; [intros Hx; right; exact Hx|].
      intros Hx. inversion Hx; subst; [congruence | assumption].
    + split; [intros _; left; exact Ha | reflexivity].
Qed.

Lemma existsb_none {A} (f : A -> bool) (l : list A) :
  forallb (fun x => negb (f x)) l = true -> existsb f l = false.
Proof.
  induction l as [|a l IH]; simpl; [reflexivity|].
  intros Hx. apply andb_prop in Hx. destruct Hx as [Ha Hl].
  destruct (f a); [discriminate|]. apply IH, Hl.
Qed.

Lemma finished_outcome (ts : tstate) :
  is_done ts = true -> is_panicked ts = false ->
  ts = TDone (ROk tt) \/ exists e, ts = TDone (RErr e).
Proof.
  destruct ts as [| | | | |[[]| e |]]; simpl; try discriminate; eauto.
Qed.

(** Claim C3: after a successful discovery, every worker of every
    interleaving runs to its end (no failure stops the others), each
    worklist item with an outcome of its own; [build] then exits with
    0 exactly when every shader compiled and was written, and with 1
    exactly when at least one failed. *)
Theorem build_exit_code_is_conjunction :
  forall {L} `{Logger L} fuel sched options fs (log : L) ws,
    gather_shaders fuel fs (source_dir options) = Some (ROk ws) ->
    let st := compile_all options sched (on_shaders_gathered log (List.length ws)) fs ws in
    build fuel sched options fs log = Some (BuildExit (exit_code st), c_fs st, c_log st) /\
    map fst (c_threads st) = ws /\
    Forall (fun p => snd p = TDone (ROk tt) \/ exists e, snd p = TDone (RErr e)) (c_threads st) /\
    (exit_code st = 0%Z <-> Forall (fun p => snd p = TDone (ROk tt)) (c_threads st)) /\
    (exit_code st = 1%Z <-> Exists (fun p => exists e, snd p = TDone (RErr e)) (c_threads st)).
Proof.
  intros L HL fuel sched options fs log ws Hg st.
  set (st0 := mkCState fs (on_shaders_gathered log (List.length ws)) true
                       (map (fun s => (s, TPending)) ws)).
  assert (Hst : st = finish options (run options sched st0)) by reflexivity.
  assert (Hm0 : map fst (c_threads st0) = ws).
  { simpl. rewrite map_map. apply map_id. }
  assert (Hf0 : flag_consistent st0).
  { unfold flag_consistent. simpl. symmetry. apply forallb_forall.
    intros x Hx. apply in_map_iff in Hx. destruct Hx as [s [<- _]]. reflexivity. }
  assert (Hp0 : forallb (fun p => negb (is_panicked (snd p))) (c_threads st0) = true).
  { apply forallb_forall. intros x Hx. simpl in Hx.
    apply in_map_iff in Hx. destruct Hx as [s [<- _]]. reflexivity. }
  destruct (run_invariant options sched st0) as [Hm1 [Hf1 Hp1]].
  set (st1 := run options sched st0) in *.
  assert (Hinv : map fst (c_threads st) = map fst (c_threads st1) /\
                 (flag_consistent st1 -> flag_consistent st) /\
                 (forallb (fun p => negb (is_panicked (snd p))) (c_threads st1) = true ->
                  forallb (fun p => negb (is_panicked (snd p))) (c_threads st) = true)).
  { rewrite Hst. unfold finish. apply run_invariant. }
  destruct Hinv as [Hm2 [Hf2 Hp2]].
  assert (Hm : map fst (c_threads st) = ws) by congruence.
  assert (Hf : flag_consistent st) by auto.
  assert (Hp : forallb (fun p => negb (is_panicked (snd p))) (c_threads st) = true) by auto.
  assert (Hd : forallb (fun p => is_done (snd p)) (c_threads st) = true).
  { rewrite Hst. apply finish_all_done. }
  assert (Hout : Forall (fun p => snd p = TDone (ROk tt) \/ exists e, snd p = TDone (RErr e))
                        (c_threads st)).
  { apply Forall_forall. intros [shader ts] Hin. simpl.
    rewrite forallb_forall in Hd, Hp.
    apply finished_outcome; [exact (Hd _ Hin)|].
    pose proof (Hp _ Hin) as Hx. simpl in Hx. destruct (is_panicked ts); [discriminate | reflexivity]. }
  split; [|split; [exact Hm | split; [exact Hout | split]]].
  - unfold build. rewrite Hg. cbv beta iota zeta.
    change (compile_all options sched (on_shaders_gathered log (List.length ws)) fs ws) with st.
    rewrite (existsb_none _ _ Hp). reflexivity.
  - unfold exit_code. rewrite Hf. split.
    + intros Hx. destruct (forallb (fun p => negb (is_failed (snd p))) (c_threads st)) eqn:Hall; [|discriminate].
      rewrite forallb_forall in Hall. rewrite Forall_forall in Hout |- *.
      intros [shader ts] Hin. specialize (Hall _ Hin). specialize (Hout _ Hin).
      simpl in *. destruct Hout as [Ho | [e Ho]]; [exact Ho|]. rewrite Ho in Hall. discriminate.
    + intros Hall. replace (forallb (fun p => negb (is_failed (snd p))) (c_threads st)) with true; [reflexivity|]. symmetry.
      apply forallb_forall. rewrite Forall_forall in Hall.
      intros x Hin. rewrite (Hall x Hin). reflexivity.
  - unfold exit_code. rewrite Hf. split.
    + intros Hx. destruct (forallb (fun p => negb (is_failed (snd p))) (c_threads st)) eqn:Hall; [discriminate|].
      apply forallb_false_exists in Hall. eapply Exists_impl; [|exact Hall].
      intros [shader ts] Hts. simpl in *. destruct ts as [| | | | |[]]; try discriminate. eauto.
    + intros Hex. replace (forallb (fun p => negb (is_failed (snd p))) (c_threads st)) with false; [reflexivity|]. symmetry.
      apply forallb_false_exists. eapply Exists_impl; [|exact Hex].
      intros [shader ts] [e He]. simpl in *. rewrite He. reflexivity.
Qed.

Lemma step_thread_no_completed options shader ts fs (log : list event) success ts' fs' log' success' :
  step_thread options shader ts fs log success = Some (ts', fs', log', success') ->
  ~ In EvCompleted log -> ~ In EvCompleted log'.
Proof.
  intros Hs Hn. destruct ts; simpl in Hs.
  - injection Hs as _ _ <- _. simpl. rewrite in_app_iff. simpl. intuition discriminate.
  - destruct (compile_prepare fs shader options) as [[tp out]| e |];
      injection Hs as _ _ <- _; exact Hn.
  - destruct (fs_write fs target_path output) as [[u| e |] fs0];
      injection Hs as _ _ <- _; exact Hn.
  - injection Hs as _ _ <- _. simpl. rewrite in_app_iff. simpl. intuition discriminate.
  - injection Hs as _ _ <- _. exact Hn.
  - discriminate.
Qed.

Lemma run_no_completed options sched (st : cstate (list event)) :
  ~ In EvCompleted (c_log st) -> ~ In EvCompleted (c_log (run options sched st)).
Proof.
  revert st. induction sched as [|i sched IH]; intros st Hn; [exact Hn|].
  simpl. apply IH. destruct (step options i st) as [st'|] eqn:Hs; [|exact Hn].
  unfold step in Hs. destruct (nth_error (c_threads st) i) as [[shader ts]|]; [|discriminate].
  destruct (step_thread options shader ts (c_fs st) (c_log st) (c_success st))
    as [[[[ts' fs'] log'] success']|] eqn:Ht; [|discriminate].
  injection Hs as <-. simpl. exact (step_thread_no_completed _ _ _ _ _ _ _ _ _ _ Ht Hn).
Qed.

(** Claim C7, as the code has it: with a logger that records its
    notifications, no run of [build] ever delivers [on_completed]:
    [build] goes from the join straight to [std::process::exit]. *)
Theorem build_never_calls_on_completed :
  forall fuel sched options fs (log : list event) outcome fs' log',
    ~ In EvCompleted log ->
    build fuel sched options fs log = Some (outcome, fs', log') ->
    ~ In EvCompleted log'.
Proof.
  intros fuel sched options fs log outcome fs' log' Hn Hb.
  unfold build in Hb.
  destruct (gather_shaders fuel fs (source_dir options)) as [[ws| e |]|]; try discriminate.
  - set (st := compile_all options sched (on_shaders_gathered log (List.length ws)) fs ws) in Hb.
    assert (Hst : ~ In EvCompleted (c_log st)).
    { unfold st, compile_all, finish. apply run_no_completed, run_no_completed.
      simpl. rewrite in_app_iff. simpl. intuition discriminate. }
    destruct (existsb _ _); injection Hb as _ _ <-; exact Hst.
  - injection Hb as _ _ <-. exact Hn.
  - injection Hb as _ _ <-. exact Hn.
Qed.

End BuildClaims.

(** ** Further properties: option parsing *)

Section TargetParsing.

Ltac split_string_goal :=
  repeat (simpl;
          match goal with
          | |- context [match ?s with EmptyString => _ | String _ _ => _ end] => is_var s; destruct s
          | |- context [match ?a with Ascii _ _ _ _ _ _ _ _ => _ end] => is_var a; destruct a
          | |- context [match ?b with true => _ | false => _ end] => is_var b; destruct b
          end).

Lemma target_from_str_cases (s : string) :
  (s = "spv" /\ target_from_str s = ROk Spirv) \/ (s = "spirv" /\ target_from_str s = ROk Spirv) \/
  (s = "wgsl" /\ target_from_str s = ROk Wgsl) \/ (s = "glsl" /\ target_from_str s = ROk Glsl) \/
  target_from_str s = RErr [target_error s].
Proof.
  unfold target_from_str. split_string_goal;
    first [ left; split; reflexivity | right; left; split; reflexivity
          | right; right; left; split; reflexivity | right; right; right; left; split; reflexivity
          | right; right; right; right; reflexivity ].
Qed.

(** [Target::from_str] accepts exactly the extension names of the
    targets ([spv], [wgsl], [glsl]) and the alias [spirv]; each name is
    parsed to the target whose [extension] it is. *)
Theorem target_from_str_accepts :
  forall s t, target_from_str s = ROk t <-> s = target_extension t \/ (s = "spirv" /\ t = Spirv).
Proof.
  intros s t. split.
  - destruct (target_from_str_cases s) as [[-> E]|[[-> E]|[[-> E]|[[-> E]|E]]]]; rewrite E;
      intros H; try discriminate; injection H as <-; auto.
  - intros [-> | [-> ->]]; [destruct t|]; reflexivity.
Qed.

End TargetParsing.

(** ** Further properties: the SPIR-V byte buffer *)

Section SpirvBytes.





Context {T : Toolchain}.


End SpirvBytes.

(** ** Further properties: the transformations' errors *)

Section TransformErrors.
Context {T : Toolchain}.

(** A WGSL shader compiled through naga: invalid UTF-8 gives the UTF-8
    error under "failed to compile shader"; a parse failure loses the
    parser's own message, leaving only "failed to parse WGSL". *)
Theorem compile_source_wgsl_errors :
  forall source shader options,
    guess (stc_path shader) = Some SrcWgsl -> target options <> Wgsl ->
    (from_utf8 source = None ->
     compile_source source shader options = RErr ["failed to compile shader"; utf8_error]) /\
    (forall text msg, from_utf8 source = Some text -> wgsl_parse_str text = inr msg ->
     compile_source source shader options = RErr ["failed to compile shader"; "failed to parse WGSL"]).
Proof.
  intros source shader options Hg Ht.
  unfold compile_source. rewrite Hg.
  destruct (target options) eqn:Et; [| congruence |]; simpl; unfold compile_naga_wgsl;
    (split; [intros Hu; rewrite Hu; reflexivity
            | intros text msg Hu Hp; rewrite Hu; simpl; rewrite Hp; reflexivity]).
Qed.

(** A GLSL shader compiled to SPIR-V through shaderc: the compiler is
    created before the source is decoded, so a missing compiler is
    reported whatever the source; then invalid UTF-8 is reported; then
    shaderc's bytes or its message are returned, under "failed to
    compile shader". *)
Theorem compile_source_shaderc :
  forall source shader options,
    guess (stc_path shader) = Some SrcGlsl -> target options = Spirv ->
    (shaderc_compiler_new = false ->
     compile_source source shader options =
       RErr ["failed to compile shader"; "failed to create shaderc compiler"]) /\
    (shaderc_compiler_new = true -> from_utf8 source = None ->
     compile_source source shader options = RErr ["failed to compile shader"; utf8_error]) /\
    (forall text, shaderc_compiler_new = true -> from_utf8 source = Some text ->
     compile_source source shader options =
       match shaderc_compile_into_spirv text (stc_kind shader) "" "main" with
       | inl spirv => ROk spirv
       | inr msg => RErr ["failed to compile shader"; msg]
       end).
Proof.
  intros source shader options Hg Ht.
  unfold compile_source. rewrite Hg, Ht. simpl.
  unfold compile_shaderc_glsl, bind, ocontext. split; [|split].
  - intros Hc. rewrite Hc. reflexivity.
  - intros Hc Hu. rewrite Hc, Hu. reflexivity.
  - intros text Hc Hu. rewrite Hc, Hu. simpl.
    destruct (shaderc_compile_into_spirv text (stc_kind shader) "" "main"); reflexivity.
Qed.

End TransformErrors.

(** ** Further properties: where [compile] writes *)

Section CompileOutput.
Context {T : Toolchain}.

Lemma diff_comps_prefix (cb cr : list string) :
  diff_comps (cb ++ cr) cb [] = Some cr.
Proof.
  induction cb as [|b cb IH].
  - destruct cr; reflexivity.
  - simpl. rewrite String.eqb_refl. exact IH.
Qed.

Lemma diff_paths_join (base rel : Path) :
  p_abs rel = false -> leading_cur rel = false -> diff_paths (join base rel) base = Some rel.
Proof.
  intros Ha Hl. destruct (join_cases base) as [[Hb1 [Hb2 Hj]] | Hj]; rewrite Hj by exact Ha.
  - unfold diff_paths. rewrite Ha, Hb1, Hb2. simpl.
    destruct rel as [a cs]. simpl in Ha. subst a. destruct cs; reflexivity.
  - unfold diff_paths. simpl. rewrite Bool.eqb_reflx, drop_cur_no_lead, diff_comps_prefix by exact Hl.
    destruct rel as [a cs]. simpl in Ha. subst a. reflexivity.
Qed.

Lemma join_abs_arg (p q : Path) : p_abs q = true -> join p q = q.
Proof. intros H. unfold join. rewrite H. reflexivity. Qed.

Lemma compile_prepare_target (fs : FS) (shader : ShaderToCompile) (options : Options) tp out :
  compile_prepare fs shader options = ROk (tp, out) ->
  exists base, diff_paths (join (source_dir options) (stc_path shader)) (source_dir options) = Some base /\
               tp = target_path_of options base.
Proof.
  unfold compile_prepare, bind, context at 1, fs_read.
  destruct (fs_file fs _) as [src|]; [|discriminate].
  destruct (compile_source src shader options); try discriminate.
  unfold ocontext. destruct (diff_paths _ _) as [base|]; [|discriminate].
  intros H. injection H as <- _. eauto.
Qed.

(** A shader whose path is relative to the source root, or the source
    root (absolute) joined with that relative path, as [gather_shaders]
    makes it, is written under the target directory at that same
    relative path with the target's extension: the [diff_paths] of
    [compile] undoes its [join]. The relative path must not start with
    ["."], which the join onto the source root drops. *)
Theorem compile_output_path_relative :
  forall fs shader options rel tp out,
    p_abs rel = false -> leading_cur rel = false ->
    stc_path shader = rel \/
      (p_abs (source_dir options) = true /\ stc_path shader = join (source_dir options) rel) ->
    compile_prepare fs shader options = ROk (tp, out) ->
    tp = target_path_of options rel.
Proof.
  intros fs shader options rel tp out Ha Hl Hp Hc.
  destruct (compile_prepare_target _ _ _ _ _ Hc) as [base [Hd ->]].
  assert (Hj : join (source_dir options) (stc_path shader) = join (source_dir options) rel).
  { destruct Hp as [-> | [Hs ->]]; [reflexivity|].
    apply join_abs_arg.
    destruct (join_cases (source_dir options)) as [[Hb _] | Hj]; [congruence|].
    rewrite Hj by exact Ha. exact Hs. }
  rewrite Hj, diff_paths_join in Hd by assumption. injection Hd as <-. reflexivity.
Qed.

Lemma rsplit_dot_ext (st ext : string) :
  rsplit_dot ext = None -> rsplit_dot (st ++ "." ++ ext) = Some (st, ext).
Proof.
  intros He. induction st as [|c st IH]; simpl.
  - rewrite He. reflexivity.
  - simpl in IH. rewrite IH. reflexivity.
Qed.

Lemma file_name_ne_empty (p : Path) (f : string) : file_name p = Some f -> f <> "".
Proof.
  unfold file_name. destruct (last _ None) as [c|]; [|discriminate].
  destruct (String.eqb_spec c ".."), (String.eqb_spec c "."), (String.eqb_spec c "");
    simpl; try discriminate. intros H. injection H as <-. exact n1.
Qed.

Lemma file_stem_ne_empty (p : Path) (st : string) : file_stem p = Some st -> st <> "".
Proof.
  unfold file_stem. destruct (file_name p) as [f|] eqn:Hf; [|discriminate].
  pose proof (file_name_ne_empty p f Hf) as Hne.
  unfold rsplit_file_at_dot.
  destruct (String.eqb_spec f ".."); [intros H; injection H as <-; congruence|].
  destruct (rsplit_dot f) as [[b a]|].
  - destruct (String.eqb_spec b ""); intros H; injection H as <-; congruence.
  - intros H; injection H as <-; congruence.
Qed.

Lemma target_rsplit_none (t : Target) : rsplit_dot (target_extension t) = None.
Proof. destruct t; reflexivity. Qed.

Lemma file_name_extended (a : bool) (cs : list string) (x : string) :
  ~ (x = ".." \/ x = "." \/ x = "") -> file_name (mkPath a (cs ++ [x])) = Some x.
Proof.
  intros Hx. unfold file_name. simpl. rewrite map_app. change (map Some [x]) with [Some x]. rewrite last_last.
  destruct (String.eqb_spec x ".."), (String.eqb_spec x "."), (String.eqb_spec x ""); simpl;
    try (exfalso; tauto); reflexivity.
Qed.

(** The output path of a source path that has a file name ends in the
    target's extension and keeps the source's file stem; read back by
    [ShaderSourceKind::guess], a WGSL or GLSL output is of that kind
    again and a SPIR-V output of no kind. *)
Theorem target_path_extension :
  forall options base,
    file_name base <> None ->
    extension (target_path_of options base) = Some (target_extension (target options)) /\
    file_stem (target_path_of options base) = file_stem base /\
    guess (target_path_of options base) =
      match target options with Spirv => None | Wgsl => Some SrcWgsl | Glsl => Some SrcGlsl end.
Proof.
  intros options base Hn.
  destruct (file_name base) as [f|] eqn:Hf; [|congruence].
  assert (Hj : file_name (join (target_dir options) base) = Some f).
  { destruct (p_abs base) eqn:Ha; [rewrite join_abs_arg by exact Ha; exact Hf|].
    destruct (join_cases (target_dir options)) as [[_ [_ Hj]] | Hj]; rewrite Hj by exact Ha;
      [exact Hf|].
    destruct base as [a cs]. simpl in Ha. subst a. cbn [p_comps] in *.
    destruct (drop_cur_named false (p_abs (target_dir options)) cs f Hf) as [Hne Hf'].
    rewrite (file_name_comps _ (p_abs (target_dir options))) by exact Hne. exact Hf'. }
  set (ext := target_extension (target options)).
  destruct (set_extension_named _ ext f Hj) as [st [Hst Hs]].
  assert (Hst' : file_stem base = Some st).
  { rewrite <- Hst. apply file_stem_same_name. congruence. }
  pose proof (file_stem_ne_empty _ _ Hst) as Hne.
  unfold target_path_of. fold ext. rewrite Hs.
  assert (Hx : String.eqb ext "" = false) by apply target_extension_nonempty. rewrite Hx.
  assert (Hfn : file_name (mkPath (p_abs (join (target_dir options) base))
                 (removelast (p_comps (join (target_dir options) base)) ++ [(st ++ "." ++ ext)%string]))
                = Some (st ++ "." ++ ext)%string).
  { apply file_name_extended, extended_name_normal. }
  assert (Hr : rsplit_file_at_dot (st ++ "." ++ ext) = (Some st, Some ext)).
  { unfold rsplit_file_at_dot.
    destruct (String.eqb_spec (st ++ "." ++ ext) "..") as [E|_].
    - exfalso. apply (extended_name_normal st (target options)). left. exact E.
    - rewrite rsplit_dot_ext by apply target_rsplit_none.
      destruct (String.eqb_spec st ""); [contradiction | reflexivity]. }
  assert (He : extension (mkPath (p_abs (join (target_dir options) base))
                 (removelast (p_comps (join (target_dir options) base)) ++ [(st ++ "." ++ ext)%string]))
               = Some ext).
  { unfold extension. rewrite Hfn, Hr. reflexivity. }
  split; [exact He | split].
  - rewrite Hst'. unfold file_stem. rewrite Hfn, Hr. reflexivity.
  - unfold guess. rewrite He. unfold ext. destruct (target options); reflexivity.
Qed.

(** When [compile] succeeds its output is at the path [compile_prepare]
    computed; and the only path whose content [compile] can change, in
    success or failure, is that one, which it reaches only after the
    source was read and translated. *)
Theorem compile_frame :
  forall fs shader options r fs',
    compile fs shader options = (r, fs') ->
    (r = ROk tt -> exists tp out, compile_prepare fs shader options = ROk (tp, out) /\
                                  fs_file fs' tp = Some out) /\
    (forall q, fs_file fs' q <> fs_file fs q ->
       exists out, compile_prepare fs shader options = ROk (q, out)).
Proof.
  intros fs shader options r fs' Hc. unfold compile in Hc.
  destruct (compile_prepare fs shader options) as [[tp out]| e |] eqn:Hp.
  - unfold fs_write in Hc. destruct (fs_writable fs tp) eqn:Hw.
    + injection Hc as <- <-. simpl. split.
      * intros _. exists tp, out. split; [reflexivity|].
        destruct (path_eq_dec tp tp); [reflexivity | congruence].
      * intros q Hq. destruct (path_eq_dec q tp) as [->|]; [|congruence].
        exists out. reflexivity.
    + injection Hc as <- <-. split; [discriminate | congruence].
  - injection Hc as <- <-. split; [discriminate | congruence].
  - injection Hc as <- <-. split; [discriminate | congruence].
Qed.

End CompileOutput.

(** ** Further properties: the order of the worklist *)

Section GatherOrder.
Context {T : Toolchain}.

Lemma gather_loop_order (fs : FS) :
  forall fuel stk acc,
    Forall (fun p => realized fs (fst p) (snd p)) stk ->
    stack_bad stk = [] ->
    stack_size stk < fuel ->
    gather_loop fuel fs (map fst stk) acc =
      Some (ROk (acc ++ List.concat (map (fun p => walk_entries (fst p) (snd p)) stk))).
Proof.
  induction fuel as [|fuel IH]; intros stk acc Hr Hb Hs; [lia|].
  destruct stk as [|[d t] rest].
  - simpl. rewrite app_nil_r. reflexivity.
  - inversion Hr as [|? ? Hd Hrest]; subst. simpl in Hd.
    destruct Hd as [d e Hm | d m subs Hm Hsub Hch].
    + unfold stack_bad in Hb. simpl in Hb. discriminate.
    + simpl. rewrite Hm. rewrite (queued_after_node d m subs rest Hsub).
      rewrite IH.
      * assert (E : map (fun p => walk_entries (fst p) (snd p)) (rev (map (child d) subs)) =
                    rev (map (fun '(n, t') => walk_entries (join d (path_of_string n)) t') subs)).
        { rewrite map_rev, map_map. f_equal. apply map_ext. intros [n t']. reflexivity. }
        rewrite map_app, concat_app, E. simpl. rewrite !app_assoc. reflexivity.
      * apply Forall_app. split; [apply Forall_rev, realized_children, Hch | exact Hrest].
      * apply Permutation_nil. rewrite <- Hb. symmetry. apply stack_bad_step.
      * rewrite stack_size_step in Hs. lia.
Qed.

(** On a well-formed tree within the fuel, [gather_shaders] lists the
    shaders in depth-first order: a directory's own declarations first,
    then its subdirectories' shaders, the last-listed subdirectory's
    first. *)
Theorem gather_shaders_walk_order :
  forall fuel fs source_dir t,
    realized fs source_dir t -> bad_dirs source_dir t = [] -> msize t < fuel ->
    gather_shaders fuel fs source_dir = Some (ROk (walk_entries source_dir t)).
Proof.
  intros fuel fs source_dir t Hr Hb Hs.
  unfold gather_shaders.
  change [source_dir] with (map fst [(source_dir, t)]).
  rewrite gather_loop_order.
  - simpl. rewrite app_nil_r. reflexivity.
  - constructor; [exact Hr | constructor].
  - unfold stack_bad. simpl. rewrite app_nil_r. exact Hb.
  - unfold stack_size. simpl. lia.
Qed.

End GatherOrder.

(** ** Further properties: the build's effects and notifications *)

Section BuildEffects.
Context {T : Toolchain}.

Lemma Forall_replace_nth {A} (P : A -> Prop) (n : nat) (x : A) (l : list A) :
  Forall P l -> P x -> Forall P (replace_nth n x l).
Proof.
  revert n. induction l as [|a l IH]; intros [|n] Hl Hx; simpl; auto.
  - inversion Hl; subst. constructor; auto.
  - inversion Hl; subst. constructor; auto.
Qed.

Lemma step_cases {L} `{Logger L} options i (st st' : cstate L) :
  step options i st = Some st' ->
  exists shader ts ts' fs' log' success',
    nth_error (c_threads st) i = Some (shader, ts) /\
    step_thread options shader ts (c_fs st) (c_log st) (c_success st) = Some (ts', fs', log', success') /\
    st' = mkCState fs' log' success' (replace_nth i (shader, ts') (c_threads st)).
Proof.
  unfold step. destruct (nth_error (c_threads st) i) as [[shader ts]|] eqn:Hn; [|discriminate].
  destruct (step_thread options shader ts (c_fs st) (c_log st) (c_success st))
    as [[[[ts' fs'] log'] success']|] eqn:Hs; [|discriminate].
  intros E. injection E as <-. exists shader, ts, ts', fs', log', success'. auto.
Qed.

(** Frame of the workers' run. *)
Lemma step_frame {L} `{Logger L} options fs0 i (st st' : cstate L) :
  step options i st = Some st' ->
  Forall (fun p => match snd p with
                   | TWriting tp _ => exists base,
                       diff_paths (join (source_dir options) (stc_path (fst p))) (source_dir options) = Some base /\
                       tp = target_path_of options base
                   | _ => True end) (c_threads st) ->
  (forall q, fs_file (c_fs st) q <> fs_file fs0 q ->
     exists shader base, In shader (map fst (c_threads st)) /\
       diff_paths (join (source_dir options) (stc_path shader)) (source_dir options) = Some base /\
       q = target_path_of options base) ->
  Forall (fun p => match snd p with
                   | TWriting tp _ => exists base,
                       diff_paths (join (source_dir options) (stc_path (fst p))) (source_dir options) = Some base /\
                       tp = target_path_of options base
                   | _ => True end) (c_threads st') /\
  (forall q, fs_file (c_fs st') q <> fs_file fs0 q ->
     exists shader base, In shader (map fst (c_threads st')) /\
       diff_paths (join (source_dir options) (stc_path shader)) (source_dir options) = Some base /\
       q = target_path_of options base).
Proof.
  intros Hs Hw Hf.
  destruct (step_cases _ _ _ _ Hs) as [shader [ts [ts' [fs' [log' [success' [Hn [Ht ->]]]]]]]].
  simpl. rewrite (map_replace_nth fst i (shader, ts') (shader, ts)) by auto.
  pose proof (nth_error_In _ _ Hn) as Hin.
  assert (Hsh : In shader (map fst (c_threads st))) by (apply in_map_iff; exists (shader, ts); auto).
  destruct ts; simpl in Ht.
  - injection Ht as <- <- _ _. split; [apply Forall_replace_nth; [exact Hw | exact I] | exact Hf].
  - destruct (compile_prepare (c_fs st) shader options) as [[tp out]| e |] eqn:Hp;
      injection Ht as <- <- _ _; (split; [apply Forall_replace_nth; [exact Hw|] | exact Hf]); simpl; auto.
    exact (compile_prepare_target _ _ _ _ _ Hp).
  - pose proof (proj1 (Forall_forall _ _) Hw _ Hin) as Hw1. simpl in Hw1.
    destruct Hw1 as [base [Hd Htp]].
    unfold fs_write in Ht. destruct (fs_writable (c_fs st) target_path);
      injection Ht as <- <- _ _; (split; [apply Forall_replace_nth; [exact Hw | exact I] |]).
    + intros q Hq. simpl in Hq. destruct (path_eq_dec q target_path) as [->|]; [|auto].
      exists shader, base. auto.
    + exact Hf.
  - injection Ht as <- <- _ _. split; [apply Forall_replace_nth; [exact Hw | exact I] | exact Hf].
  - injection Ht as <- <- _ _. split; [apply Forall_replace_nth; [exact Hw | exact I] | exact Hf].
  - discriminate.
Qed.

Lemma run_frame {L} `{Logger L} options fs0 sched (st : cstate L) :
  Forall (fun p => match snd p with
                   | TWriting tp _ => exists base,
                       diff_paths (join (source_dir options) (stc_path (fst p))) (source_dir options) = Some base /\
                       tp = target_path_of options base
                   | _ => True end) (c_threads st) ->
  (forall q, fs_file (c_fs st) q <> fs_file fs0 q ->
     exists shader base, In shader (map fst (c_threads st)) /\
       diff_paths (join (source_dir options) (stc_path shader)) (source_dir options) = Some base /\
       q = target_path_of options base) ->
  Forall (fun p => match snd p with
                   | TWriting tp _ => exists base,
                       diff_paths (join (source_dir options) (stc_path (fst p))) (source_dir options) = Some base /\
                       tp = target_path_of options base
                   | _ => True end) (c_threads (run options sched st)) /\
  (forall q, fs_file (c_fs (run options sched st)) q <> fs_file fs0 q ->
     exists shader base, In shader (map fst (c_threads (run options sched st))) /\
       diff_paths (join (source_dir options) (stc_path shader)) (source_dir options) = Some base /\
       q = target_path_of options base).
Proof.
  revert st. induction sched as [|i sched IH]; intros st Hw Hf; [auto|].
  simpl. destruct (step options i st) as [st'|] eqn:Hs; [|apply IH; auto].
  destruct (step_frame options fs0 i st st' Hs Hw Hf). apply IH; auto.
Qed.

Lemma compile_all_frame {L} `{Logger L} options sched (log : L) fs ws :
  forall q, fs_file (c_fs (compile_all options sched log fs ws)) q <> fs_file fs q ->
    exists shader base, In shader ws /\
      diff_paths (join (source_dir options) (stc_path shader)) (source_dir options) = Some base /\
      q = target_path_of options base.
Proof.
  set (st0 := mkCState fs log true (map (fun s => (s, TPending)) ws)).
  assert (Hw0 : Forall (fun p => match snd p with
                   | TWriting tp _ => exists base,
                       diff_paths (join (source_dir options) (stc_path (fst p))) (source_dir options) = Some base /\
                       tp = target_path_of options base
                   | _ => True end) (c_threads st0)).
  { apply Forall_forall. intros x Hx. simpl in Hx. apply in_map_iff in Hx.
    destruct Hx as [s [<- _]]. exact I. }
  destruct (run_frame options fs sched st0 Hw0 ltac:(intros q Hq; exfalso; apply Hq; reflexivity)) as [Hw1 Hf1].
  unfold compile_all, finish. fold st0.
  destruct (run_frame options fs
             (flat_map (fun i => repeat i 5) (seq 0 (List.length (c_threads (run options sched st0)))))
             _ Hw1 Hf1) as [_ Hf2].
  intros q Hq. destruct (Hf2 q Hq) as [shader [base [Hin Hrest]]].
  exists shader, base. split; [|exact Hrest].
  rewrite (proj1 (run_invariant _ _ _)), (proj1 (run_invariant _ _ _)) in Hin.
  simpl in Hin. rewrite map_map, map_id in Hin. exact Hin.
Qed.

(** Whatever the interleaving, a build changes no file other than the
    output path of a shader of the worklist [gather_shaders] returned:
    the target directory joined with the shader's path relative to the
    source root, with the target's extension. *)
Theorem build_frame :
  forall {L} `{Logger L} fuel sched options fs (log : L) out fs' log',
    build fuel sched options fs log = Some (out, fs', log') ->
    forall q, fs_file fs' q <> fs_file fs q ->
    exists ws shader base,
      gather_shaders fuel fs (source_dir options) = Some (ROk ws) /\ In shader ws /\
      diff_paths (join (source_dir options) (stc_path shader)) (source_dir options) = Some base /\
      q = target_path_of options base.
Proof.
  intros L HL fuel sched options fs log out fs' log' Hb q Hq.
  unfold build in Hb.
  destruct (gather_shaders fuel fs (source_dir options)) as [[ws| e |]|] eqn:Hg; try discriminate.
  - exists ws. cbv zeta in Hb.
    assert (Hfs : fs' = c_fs (compile_all options sched (on_shaders_gathered log (List.length ws)) fs ws)).
    { destruct (existsb _ _); injection Hb as _ <- _; reflexivity. }
    subst fs'. destruct (compile_all_frame _ _ _ _ _ q Hq) as [shader [base H]].
    exists shader, base. auto.
  - injection Hb as _ <- _. congruence.
  - injection Hb as _ <- _. congruence.
Qed.

Lemma compile_all_facts {L} `{Logger L} options sched (log : L) fs ws :
  let st := compile_all options sched log fs ws in
  map fst (c_threads st) = ws /\ flag_consistent st /\
  forallb (fun p => negb (is_panicked (snd p))) (c_threads st) = true /\
  forallb (fun p => is_done (snd p)) (c_threads st) = true.
Proof.
  intros st.
  set (st0 := mkCState fs log true (map (fun s => (s, TPending)) ws)).
  assert (Hst : st = finish options (run options sched st0)) by reflexivity.
  assert (Hm0 : map fst (c_threads st0) = ws).
  { simpl. rewrite map_map. apply map_id. }
  assert (Hf0 : flag_consistent st0).
  { unfold flag_consistent. simpl. symmetry. apply forallb_forall.
    intros x Hx. apply in_map_iff in Hx. destruct Hx as [s [<- _]]. reflexivity. }
  assert (Hp0 : forallb (fun p => negb (is_panicked (snd p))) (c_threads st0) = true).
  { apply forallb_forall. intros x Hx. simpl in Hx.
    apply in_map_iff in Hx. destruct Hx as [s [<- _]]. reflexivity. }
  destruct (run_invariant options sched st0) as [Hm1 [Hf1 Hp1]].
  set (st1 := run options sched st0) in *.
  assert (Hinv : map fst (c_threads st) = map fst (c_threads st1) /\
                 (flag_consistent st1 -> flag_consistent st) /\
                 (forallb (fun p => negb (is_panicked (snd p))) (c_threads st1) = true ->
                  forallb (fun p => negb (is_panicked (snd p))) (c_threads st) = true)).
  { rewrite Hst. unfold finish. apply run_invariant. }
  destruct Hinv as [Hm2 [Hf2 Hp2]].
  split; [congruence | split; [auto | split; [auto |]]].
  rewrite Hst. apply finish_all_done.
Qed.

Lemma build_after_gather {L} `{Logger L} fuel sched options fs (log : L) ws :
  gather_shaders fuel fs (source_dir options) = Some (ROk ws) ->
  let st := compile_all options sched (on_shaders_gathered log (List.length ws)) fs ws in
  build fuel sched options fs log = Some (BuildExit (exit_code st), c_fs st, c_log st).
Proof.
  intros Hg st. destruct (compile_all_facts options sched (on_shaders_gathered log (List.length ws)) fs ws)
    as [_ [_ [Hp _]]].
  unfold build. rewrite Hg. cbv beta iota zeta.
  change (compile_all options sched (on_shaders_gathered log (List.length ws)) fs ws) with st.
  fold st in Hp. rewrite (existsb_none _ _ Hp). reflexivity.
Qed.

Lemma count_app (f : event -> bool) (l l' : list event) :
  count_events f (l ++ l') = count_events f l + count_events f l'.
Proof. unfold count_events. rewrite filter_app, length_app. reflexivity. Qed.

Lemma count_snoc (f : event -> bool) (l : list event) (e : event) :
  count_events f (l ++ [e]) = count_events f l + (if f e then 1 else 0).
Proof. rewrite count_app. unfold count_events. simpl. destruct (f e); reflexivity. Qed.

Lemma count_replace_nth {A} (f : A -> bool) (n : nat) (x y : A) (l : list A) :
  nth_error l n = Some y ->
  List.length (filter f (replace_nth n x l)) + (if f y then 1 else 0) =
  List.length (filter f l) + (if f x then 1 else 0).
Proof.
  revert n. induction l as [|a l IH]; intros [|n] Hn; simpl in *; try discriminate.
  - injection Hn as ->. destruct (f x), (f y); simpl; lia.
  - specialize (IH n Hn). destruct (f a); simpl; lia.
Qed.

Lemma step_counts options i (st st' : cstate (list event)) :
  step options i st = Some st' ->
  count_events is_compiling_event (c_log st') +
    List.length (filter (fun p => is_pending (snd p)) (c_threads st')) =
  count_events is_compiling_event (c_log st) +
    List.length (filter (fun p => is_pending (snd p)) (c_threads st)) /\
  count_events is_error_event (c_log st') +
    List.length (filter (fun p => error_reported (snd p)) (c_threads st)) =
  count_events is_error_event (c_log st) +
    List.length (filter (fun p => error_reported (snd p)) (c_threads st')) /\
  exists suf, c_log st' = c_log st ++ suf.
Proof.
  intros Hs.
  destruct (step_cases _ _ _ _ Hs) as [shader [ts [ts' [fs' [log' [success' [Hn [Ht ->]]]]]]]].
  simpl.
  pose proof (count_replace_nth (fun p => is_pending (snd p)) i (shader, ts') (shader, ts) _ Hn) as C1.
  pose proof (count_replace_nth (fun p => error_reported (snd p)) i (shader, ts') (shader, ts) _ Hn) as C2.
  simpl in C1, C2.
  destruct ts; simpl in Ht.
  - injection Ht as <- _ <- _. simpl in *. rewrite !count_snoc. simpl.
    split; [lia | split; [lia | eauto]].
  - destruct (compile_prepare (c_fs st) shader options) as [[tp out]| e |];
      injection Ht as <- _ <- _; simpl in *;
      (split; [lia | split; [lia | exists []; rewrite app_nil_r; reflexivity]]).
  - destruct (fs_write (c_fs st) target_path output) as [[u| e |] fs0];
      injection Ht as <- _ <- _; simpl in *;
      (split; [lia | split; [lia | exists []; rewrite app_nil_r; reflexivity]]).
  - injection Ht as <- _ <- _. simpl in *. rewrite !count_snoc. simpl.
    split; [lia | split; [lia | eauto]].
  - injection Ht as <- _ <- _. simpl in *.
    split; [lia | split; [lia | exists []; rewrite app_nil_r; reflexivity]].
  - discriminate.
Qed.

Lemma run_counts options sched (st : cstate (list event)) :
  count_events is_compiling_event (c_log (run options sched st)) +
    List.length (filter (fun p => is_pending (snd p)) (c_threads (run options sched st))) =
  count_events is_compiling_event (c_log st) +
    List.length (filter (fun p => is_pending (snd p)) (c_threads st)) /\
  count_events is_error_event (c_log (run options sched st)) +
    List.length (filter (fun p => error_reported (snd p)) (c_threads st)) =
  count_events is_error_event (c_log st) +
    List.length (filter (fun p => error_reported (snd p)) (c_threads (run options sched st))) /\
  exists suf, c_log (run options sched st) = c_log st ++ suf.
Proof.
  revert st. induction sched as [|i sched IH]; intros st.
  - simpl. split; [lia | split; [lia | exists []; rewrite app_nil_r; reflexivity]].
  - simpl. destruct (step options i st) as [st'|] eqn:Hs; [|apply IH].
    destruct (step_counts _ _ _ _ Hs) as [A [B [suf Hsuf]]].
    destruct (IH st') as [A' [B' [suf' Hsuf']]].
    split; [lia | split; [lia |]]. exists (suf ++ suf'). rewrite Hsuf', Hsuf, app_assoc. reflexivity.
Qed.

Lemma perm_replace_nth {A B} (f : A -> bool) (g : A -> B) (n : nat) (x y : A) (l : list A) :
  nth_error l n = Some y ->
  Permutation (map g (filter f (replace_nth n x l)) ++ (if f y then [g y] else []))
              (map g (filter f l) ++ (if f x then [g x] else [])).
Proof.
  revert n. induction l as [|a l IH]; intros [|n] Hn; simpl in *; try discriminate.
  - injection Hn as ->. destruct (f x), (f y); simpl; rewrite ?app_nil_r.
    + rewrite <- (Permutation_cons_append _ (g y)), <- (Permutation_cons_append _ (g x)).
      apply perm_swap.
    + apply Permutation_cons_append.
    + apply Permutation_sym, Permutation_cons_append.
    + reflexivity.
  - specialize (IH n Hn). destruct (f a); simpl; [apply perm_skip|]; exact IH.
Qed.

Lemma compiling_names_snoc (l : list event) (e : event) :
  compiling_names (l ++ [e]) =
  compiling_names l ++ (match e with EvCompiling s => [s] | _ => [] end).
Proof. unfold compiling_names. rewrite flat_map_app. simpl. rewrite app_nil_r. reflexivity. Qed.

(** Each [on_compiling] moves a name from the pending workers to the log. *)
Lemma step_names options i (st st' : cstate (list event)) :
  step options i st = Some st' ->
  Permutation
    (compiling_names (c_log st') ++
       map (fun p => stc_name (fst p)) (filter (fun p => is_pending (snd p)) (c_threads st')))
    (compiling_names (c_log st) ++
       map (fun p => stc_name (fst p)) (filter (fun p => is_pending (snd p)) (c_threads st))).
Proof.
  intros Hs.
  destruct (step_cases _ _ _ _ Hs) as [shader [ts [ts' [fs' [log' [success' [Hn [Ht ->]]]]]]]].
  simpl.
  pose proof (perm_replace_nth (fun p => is_pending (snd p)) (fun p => stc_name (fst p))
                i (shader, ts') (shader, ts) _ Hn) as P.
  simpl in P.
  destruct ts; simpl in Ht.
  - injection Ht as <- _ <- _. simpl in P. rewrite app_nil_r in P.
    rewrite compiling_names_snoc, <- app_assoc. apply Permutation_app_head.
    rewrite <- P. apply Permutation_app_comm.
  - destruct (compile_prepare (c_fs st) shader options) as [[tp out]| e |];
      injection Ht as <- _ <- _; simpl in P; rewrite !app_nil_r in P;
      apply Permutation_app_head; exact P.
  - destruct (fs_write (c_fs st) target_path output) as [[u| e |] fs0];
      injection Ht as <- _ <- _; simpl in P; rewrite !app_nil_r in P;
      apply Permutation_app_head; exact P.
  - injection Ht as <- _ <- _. simpl in P. rewrite !app_nil_r in P.
    rewrite compiling_names_snoc, app_nil_r. apply Permutation_app_head; exact P.
  - injection Ht as <- _ <- _. simpl in P. rewrite !app_nil_r in P.
    apply Permutation_app_head; exact P.
  - discriminate.
Qed.

Lemma run_names options sched (st : cstate (list event)) :
  Permutation
    (compiling_names (c_log (run options sched st)) ++
       map (fun p => stc_name (fst p)) (filter (fun p => is_pending (snd p)) (c_threads (run options sched st))))
    (compiling_names (c_log st) ++
       map (fun p => stc_name (fst p)) (filter (fun p => is_pending (snd p)) (c_threads st))).
Proof.
  revert st. induction sched as [|i sched IH]; intros st; simpl; [reflexivity|].
  destruct (step options i st) as [st'|] eqn:Hs; [|apply IH].
  rewrite IH. exact (step_names _ _ _ _ Hs).
Qed.

Lemma filter_none {A} (f : A -> bool) (l : list A) :
  forallb (fun x => negb (f x)) l = true <-> List.length (filter f l) = 0.
Proof.
  induction l as [|a l IH]; simpl; [tauto|].
  destruct (f a); simpl; [split; [discriminate | lia] | exact IH].
Qed.

(** With the recording logger, a build that gathered [ws] appends the
    count of [ws], then exactly one compiling notice per shader; it
    exits with 0 when no compile error was reported and with 1 when
    one was. *)
Theorem build_notifications :
  forall fuel sched options fs (log : list event) ws out fs' log',
    gather_shaders fuel fs (source_dir options) = Some (ROk ws) ->
    build fuel sched options fs log = Some (out, fs', log') ->
    exists rest,
      log' = log ++ EvShadersGathered (List.length ws) :: rest /\
      Permutation (compiling_names rest) (map stc_name ws) /\
      ((out = BuildExit 0%Z /\ count_events is_error_event rest = 0) \/
       (out = BuildExit 1%Z /\ count_events is_error_event rest > 0)).
Proof.
  intros fuel sched options fs log ws out fs' log' Hg Hb.
  rewrite (build_after_gather _ _ _ _ _ _ Hg) in Hb. injection Hb as <- _ <-.
  set (log0 := log ++ [EvShadersGathered (List.length ws)]).
  destruct (compile_all_facts options sched log0 fs ws) as [_ [Hf [_ Hd]]].
  set (st0 := mkCState fs log0 true (map (fun s => (s, TPending)) ws)).
  set (st1 := run options sched st0).
  set (st := compile_all options sched log0 fs ws) in *.
  assert (Hst : st = run options (flat_map (fun i => repeat i 5) (seq 0 (List.length (c_threads st1)))) st1)
    by reflexivity.
  destruct (run_counts options sched st0) as [A1 [B1 [s1 H1]]].
  destruct (run_counts options (flat_map (fun i => repeat i 5) (seq 0 (List.length (c_threads st1)))) st1)
    as [A2 [B2 [s2 H2]]].
  rewrite <- Hst in A2, B2, H2. fold st1 in A1, B1, H1.
  assert (Hp0 : List.length (filter (fun p => is_pending (snd p)) (c_threads st0)) = List.length ws).
  { simpl. clear. induction ws as [|w ws IH]; simpl; [reflexivity | f_equal; exact IH]. }
  assert (Hr0 : List.length (filter (fun p => error_reported (snd p)) (c_threads st0)) = 0).
  { simpl. clear. induction ws as [|w ws IH]; simpl; [reflexivity | exact IH]. }
  assert (Hpe : List.length (filter (fun p => is_pending (snd p)) (c_threads st)) = 0).
  { apply filter_none. rewrite forallb_forall in Hd |- *. intros x Hx.
    specialize (Hd x Hx). destruct (snd x); try discriminate. reflexivity. }
  assert (Hre : List.length (filter (fun p => error_reported (snd p)) (c_threads st)) =
                List.length (filter (fun p => is_failed (snd p)) (c_threads st))).
  { f_equal. apply filter_ext_in. intros x Hx. rewrite forallb_forall in Hd.
    specialize (Hd x Hx). destruct (snd x) as [| | | | |[]]; try discriminate; reflexivity. }
  exists (s1 ++ s2).
  assert (Hl : c_log st = log0 ++ s1 ++ s2) by (rewrite H2, H1; simpl; rewrite app_assoc; reflexivity).
  split; [rewrite Hl; unfold log0; simpl; rewrite <- app_assoc; reflexivity|].
  split.
  { pose proof (run_names options sched st0) as P1. fold st1 in P1.
    pose proof (run_names options (flat_map (fun i => repeat i 5) (seq 0 (List.length (c_threads st1)))) st1)
      as P2.
    rewrite <- Hst in P2.
    assert (E0 : map (fun p => stc_name (fst p)) (filter (fun p => is_pending (snd p)) (c_threads st0)) =
                 map stc_name ws).
    { simpl. clear. induction ws as [|w ws IH]; simpl; [reflexivity | f_equal; exact IH]. }
    assert (Ee : filter (fun p => is_pending (snd p)) (c_threads st) = [])
      by (apply length_zero_iff_nil; exact Hpe).
    rewrite E0 in P1. change (c_log st0) with log0 in P1.
    rewrite Ee, app_nil_r, Hl in P2. unfold compiling_names in P1, P2 |- *.
    rewrite flat_map_app in P2.
    apply (Permutation_app_inv_l (flat_map (fun e => match e with EvCompiling s => [s] | _ => [] end) log0)).
    eapply perm_trans; [exact P2 | exact P1]. }
  rewrite Hl, !count_app in *. simpl c_log in *.
  unfold exit_code. rewrite Hf.
  destruct (forallb (fun p => negb (is_failed (snd p))) (c_threads st)) eqn:Hok.
  - left. split; [reflexivity|]. apply filter_none in Hok. lia.
  - right. split; [reflexivity|].
    assert (List.length (filter (fun p => is_failed (snd p)) (c_threads st)) <> 0).
    { intros E. apply filter_none in E. congruence. }
    lia.
Qed.

Lemma run_no_threads {L} `{Logger L} options sched (st : cstate L) :
  c_threads st = [] -> run options sched st = st.
Proof.
  intros Hn. revert st Hn. induction sched as [|i sched IH]; intros st Hn; [reflexivity|].
  simpl. unfold step at 1. rewrite Hn. destruct i; apply IH, Hn.
Qed.

(** A source tree that declares no shader builds to exit code 0 without
    touching the file system, after reporting zero shaders. *)
Theorem build_empty_worklist :
  forall {L} `{Logger L} fuel sched options fs (log : L),
    gather_shaders fuel fs (source_dir options) = Some (ROk []) ->
    build fuel sched options fs log = Some (BuildExit 0%Z, fs, on_shaders_gathered log 0).
Proof.
  intros L HL fuel sched options fs log Hg.
  rewrite (build_after_gather _ _ _ _ _ _ Hg).
  unfold compile_all, finish. rewrite (run_no_threads _ sched) by reflexivity.
  rewrite run_no_threads by reflexivity. reflexivity.
Qed.

End BuildEffects.

(** ** Instances at the example inputs *)

Module Examples.
Import Demo DemoTrees DemoInputs.

Lemma scenario_realized : realized scenario_fs proj scenario_tree.
Proof.
  unfold scenario_tree. apply (realized_node _ _ root_manifest).
  - vm_compute. reflexivity.
  - reflexivity.
  - constructor; [|constructor]. simpl.
    apply (realized_node _ _ post_manifest (nil : list (string * mtree))).
    + vm_compute. reflexivity.
    + reflexivity.
    + constructor.
Qed.

Lemma broken_realized : realized broken_fs proj broken_tree.
Proof.
  unfold broken_tree. apply (realized_node _ _ root_manifest).
  - vm_compute. reflexivity.
  - reflexivity.
  - constructor; [|constructor]. simpl.
    eapply realized_bad. vm_compute. reflexivity.
Qed.

Lemma compile_fn_matches_dispatch_table_witness :
  guess (stc_path tonemap) = Some SrcGlsl /\ target (opts Wgsl) = Wgsl /\
  snd (compile inputs_fs tonemap (opts Wgsl)) = inputs_fs /\
  fst (compile inputs_fs tonemap (opts Wgsl)) = RErr [dispatch_error].
Proof.
  assert (Hg : guess (stc_path tonemap) = Some SrcGlsl) by reflexivity.
  assert (Ht : target (opts Wgsl) = Wgsl) by reflexivity.
  destruct (proj2 compile_fn_matches_dispatch_table inputs_fs tonemap (opts Wgsl) Hg Ht)
    as [H1 H2].
  split; [exact Hg | split; [exact Ht | split; [exact H1 |]]].
  apply (H2 (list_byte_of_string "void main() {}")). vm_compute. reflexivity.
Defined.

(** C2 fails at scenario 1: the entries are [/proj/blit.wgsl] and
    [/proj/post/bloom.wgsl], not [blit.wgsl] and [post/bloom.wgsl]. *)
Lemma gather_paths_not_root_relative :
  realized scenario_fs proj scenario_tree /\ bad_dirs proj scenario_tree = [] /\
  gather_shaders 10 scenario_fs proj = Some (ROk scenario_ws) /\
  ~ Permutation scenario_ws (expected_entries (rel_path []) scenario_tree).
Proof.
  split; [exact scenario_realized | split; [reflexivity | split; [vm_compute; reflexivity |]]].
  intros Hp.
  assert (Hin : In (mkShaderToCompile "blit" (rel_path ["blit.wgsl"]) Fragment) scenario_ws).
  { apply (Permutation_in _ (Permutation_sym Hp)). vm_compute. left. reflexivity. }
  vm_compute in Hin. destruct Hin as [H | [H | []]]; discriminate.
Qed.

Lemma gather_shaders_entries_witness :
  realized scenario_fs proj scenario_tree /\ bad_dirs proj scenario_tree = [] /\
  msize scenario_tree < 10 /\
  exists ws, gather_shaders 10 scenario_fs proj = Some (ROk ws) /\
    List.length ws = List.length (decls_of scenario_tree) /\
    Permutation ws (expected_entries proj scenario_tree).
Proof.
  assert (Hb : bad_dirs proj scenario_tree = []) by reflexivity.
  assert (Hs : msize scenario_tree < 10) by (vm_compute; lia).
  split; [exact scenario_realized | split; [exact Hb | split; [exact Hs |]]].
  exact (gather_shaders_entries 10 scenario_fs proj scenario_tree scenario_realized Hb Hs).
Defined.

Lemma build_exit_code_is_conjunction_witness :
  gather_shaders 10 scenario_fs (source_dir (opts Spirv)) = Some (ROk scenario_ws) /\
  build 10 [1; 0] (opts Spirv) scenario_fs ([] : list event) =
    Some (BuildExit (exit_code (compile_all (opts Spirv) [1; 0] [EvShadersGathered 2]
                                  scenario_fs scenario_ws)),
          c_fs (compile_all (opts Spirv) [1; 0] [EvShadersGathered 2] scenario_fs scenario_ws),
          c_log (compile_all (opts Spirv) [1; 0] [EvShadersGathered 2] scenario_fs scenario_ws)).
Proof.
  assert (Hg : gather_shaders 10 scenario_fs (source_dir (opts Spirv)) = Some (ROk scenario_ws))
    by (vm_compute; reflexivity).
  split; [exact Hg |].
  exact (proj1 (build_exit_code_is_conjunction 10 [1; 0] (opts Spirv) scenario_fs [] scenario_ws Hg)).
Defined.

Lemma discovery_failure_aborts_build_witness :
  exists e d, gather_shaders 10 broken_fs proj = Some (RErr e) /\
              In d (bad_dirs proj broken_tree) /\ names_manifest d e.
Proof.
  apply (proj1 discovery_failure_aborts_build 10 broken_fs proj broken_tree broken_realized).
  - discriminate.
  - vm_compute. lia.
Defined.

Lemma compile_identity_fixed_point_witness :
  compile_source (list_byte_of_string demo_source) blit (opts Wgsl) =
    ROk (list_byte_of_string demo_source).
Proof.
  apply (proj1 (proj2 compile_identity_fixed_point)). left. split; reflexivity.
Defined.

Lemma output_path_derivation_witness :
  target_path_of (opts Spirv) (rel_path ["blit.wgsl"]) <>
  target_path_of (opts Spirv) (rel_path ["post"; "bloom.wgsl"]).
Proof.
  apply (proj2 (proj2 output_path_derivation)); [reflexivity .. |].
  vm_compute. discriminate.
Defined.

Lemma build_never_calls_on_completed_witness :
  exists fs', build 10 [] (opts Spirv) scenario_fs [] = Some (BuildExit 0, fs', scenario_log) /\
              ~ In EvCompleted scenario_log.
Proof.
  destruct (build 10 [] (opts Spirv) scenario_fs []) as [[[o f] l]|] eqn:Hb.
  - exists f. pose proof Hb as Hb'. vm_compute in Hb'.
    injection Hb' as Ho Hf Hl. subst o l. split; [reflexivity |].
    exact (build_never_calls_on_completed 10 [] (opts Spirv) scenario_fs [] _ _ _
             (fun H => H) Hb).
  - vm_compute in Hb. discriminate.
Defined.

Lemma ir_pipeline_targets_witness :
  compile_fn SrcWgsl Glsl = Some compile_naga_wgsl_fn.
Proof.
  apply (proj2 (ir_pipeline_targets SrcWgsl Glsl)). split; [reflexivity | right; reflexivity].
Defined.

Lemma guess_by_exact_extension_witness :
  compile inputs_fs upper_blit (opts Spirv) = (RErr [guess_error], inputs_fs).
Proof.
  apply (proj2 (proj2 (proj2 (proj2 (proj2 (proj2 guess_by_exact_extension)))))
           inputs_fs upper_blit (opts Spirv) (list_byte_of_string demo_source)).
  - reflexivity.
  - vm_compute. reflexivity.
Defined.

Lemma compile_source_never_reaches_unreachable_witness : Spirv <> Wgsl.
Proof.
  apply (proj1 (proj2 compile_source_never_reaches_unreachable) SrcWgsl Spirv). reflexivity.
Defined.

(** C6's injectivity fails for a relative path with a leading ["."]:
    [./blit.wgsl] and [blit.wgsl] differ, stems included, yet both are
    written to [/proj/target/blit.spv]. *)
Lemma output_paths_collide_on_leading_cur :
  p_abs (stc_path DotInputs.dot_blit) = false /\ p_abs (stc_path DotInputs.plain_blit) = false /\
  path_stem (stc_path DotInputs.dot_blit) <> path_stem (stc_path DotInputs.plain_blit) /\
  target_path_of (opts Spirv) (stc_path DotInputs.dot_blit) =
    target_path_of (opts Spirv) (stc_path DotInputs.plain_blit) /\
  exists out,
    compile_prepare DotInputs.dot_fs DotInputs.dot_blit (DotInputs.cwd_opts Spirv) =
      ROk (mkPath true ["proj"; "target"; "blit.spv"], out) /\
    compile_prepare DotInputs.dot_fs DotInputs.plain_blit (DotInputs.cwd_opts Spirv) =
      ROk (mkPath true ["proj"; "target"; "blit.spv"], out).
Proof.
  split; [reflexivity|]. split; [reflexivity|].
  split; [vm_compute; discriminate|]. split; [vm_compute; reflexivity|].
  eexists. split; compute; reflexivity.
Qed.

End Examples.

(** ** Instances of the further properties at the example inputs *)

Module ExtraExamples.
Import Demo DemoTrees DemoInputs ExtraInputs.


Lemma compile_source_wgsl_errors_witness :
  compile_source [] blit (opts Spirv) = RErr ["failed to compile shader"; "failed to parse WGSL"].
Proof.
  apply (proj2 (compile_source_wgsl_errors [] blit (opts Spirv) eq_refl ltac:(discriminate))
           "" "expected global item"); reflexivity.
Defined.

Lemma compile_source_shaderc_witness :
  compile_source (list_byte_of_string "void main() {}") tonemap (opts Spirv) = ROk [x03; x02; x23; x07].
Proof.
  rewrite (proj2 (proj2 (compile_source_shaderc (T:=toy_toolchain) (list_byte_of_string "void main() {}") tonemap
                           (opts Spirv) eq_refl eq_refl)) "void main() {}" eq_refl eq_refl).
  reflexivity.
Defined.

Lemma compile_frame_witness :
  exists r fs', compile inputs_fs blit (opts Wgsl) = (r, fs') /\
    exists tp out, compile_prepare inputs_fs blit (opts Wgsl) = ROk (tp, out) /\
                   fs_file fs' tp = Some out.
Proof.
  destruct (compile inputs_fs blit (opts Wgsl)) as [r fs'] eqn:Hc.
  exists r, fs'. split; [reflexivity|].
  apply (proj1 (compile_frame inputs_fs blit (opts Wgsl) r fs' Hc)).
  pose proof Hc as Hc'. vm_compute in Hc'. injection Hc' as <- _. reflexivity.
Defined.

Lemma compile_output_path_relative_witness :
  exists tp out, compile_prepare inputs_fs blit (opts Wgsl) = ROk (tp, out) /\
                 tp = target_path_of (opts Wgsl) (rel_path ["blit.wgsl"]).
Proof.
  eexists. eexists. split; [vm_compute; reflexivity|].
  eapply (compile_output_path_relative inputs_fs blit (opts Wgsl) (rel_path ["blit.wgsl"]) _ _
           eq_refl eq_refl (or_introl eq_refl)).
  vm_compute. reflexivity.
Defined.

Lemma target_path_extension_witness :
  extension (target_path_of (opts Glsl) (rel_path ["blit.wgsl"])) = Some (target_extension Glsl) /\
  file_stem (target_path_of (opts Glsl) (rel_path ["blit.wgsl"])) = file_stem (rel_path ["blit.wgsl"]) /\
  guess (target_path_of (opts Glsl) (rel_path ["blit.wgsl"])) = Some SrcGlsl.
Proof.
  apply (target_path_extension (opts Glsl) (rel_path ["blit.wgsl"])).
  vm_compute. intros H. discriminate H.
Defined.

Lemma gather_shaders_walk_order_witness :
  gather_shaders 10 scenario_fs proj = Some (ROk (walk_entries proj scenario_tree)).
Proof.
  apply gather_shaders_walk_order.
  - exact Examples.scenario_realized.
  - vm_compute. reflexivity.
  - vm_compute. lia.
Defined.

Lemma build_frame_witness :
  exists out fs' log', build 10 [] (opts Spirv) scenario_fs ([] : list event) = Some (out, fs', log') /\
    exists ws shader base,
      gather_shaders 10 scenario_fs (source_dir (opts Spirv)) = Some (ROk ws) /\ In shader ws /\
      diff_paths (join (source_dir (opts Spirv)) (stc_path shader)) (source_dir (opts Spirv)) = Some base /\
      mkPath true ["proj"; "target"; "blit.spv"] = target_path_of (opts Spirv) base.
Proof.
  destruct (build 10 [] (opts Spirv) scenario_fs ([] : list event)) as [[[o f] l]|] eqn:Hb.
  - exists o, f, l. split; [reflexivity|].
    apply (build_frame 10 [] (opts Spirv) scenario_fs [] o f l Hb).
    pose proof Hb as Hb'. vm_compute in Hb'. injection Hb' as _ <- _.
    vm_compute. intros H. discriminate H.
  - vm_compute in Hb. discriminate Hb.
Defined.

Lemma build_notifications_witness :
  exists out fs' log', build 10 [1; 0] (opts Spirv) scenario_fs ([] : list event) = Some (out, fs', log') /\
    exists rest,
      log' = [] ++ EvShadersGathered (List.length scenario_ws) :: rest /\
      Permutation (compiling_names rest) (map stc_name scenario_ws) /\
      ((out = BuildExit 0%Z /\ count_events is_error_event rest = 0) \/
       (out = BuildExit 1%Z /\ count_events is_error_event rest > 0)).
Proof.
  destruct (build 10 [1; 0] (opts Spirv) scenario_fs ([] : list event)) as [[[o f] l]|] eqn:Hb.
  - exists o, f, l. split; [reflexivity|].
    apply (build_notifications 10 [1; 0] (opts Spirv) scenario_fs [] scenario_ws o f l); [|exact Hb].
    vm_compute. reflexivity.
  - vm_compute in Hb. discriminate Hb.
Defined.

Lemma build_empty_worklist_witness :
  build 10 [0; 0] (opts Spirv) empty_fs ([] : list event) =
    Some (BuildExit 0%Z, empty_fs, on_shaders_gathered [] 0).
Proof.
  apply build_empty_worklist. vm_compute. reflexivity.
Defined.

End ExtraExamples.
